(** * Directory-structure generator and change watcher

    A shallow embedding of [generate_structure.py] and [watch_structure.py].

    The filesystem the two scripts look at is an explicit argument: a tree
    of [entry] values for what [iterdir] / [os.walk] see, and a function
    from paths to timestamps for [os.path.getmtime].  Paths are POSIX path
    strings; strings are sequences of bytes (UTF-8), whose byte-wise order
    is the code-point order Python uses to compare [str]. *)

From stdpp Require Import base numbers list sorting strings pretty gmap.
From Stdlib Require Import ZArith Ascii.

(** ** Python values used by both scripts *)

(** The exceptions a filesystem call can raise; [OSError] stands for the
    ones without a name of their own. *)
Inductive exn :=
| PermissionError
| FileNotFoundError
| NotADirectoryError
| OSError.

#[global] Instance exn_eq_dec : EqDecision exn.
Proof. solve_decision. Defined.

(** A call either returns or raises. *)
Inductive result (A : Type) :=
| Ok (a : A)
| Raise (e : exn).
Arguments Ok {A} a.
Arguments Raise {A} e.

Definition result_map {A B} (f : A → B) (r : result A) : result B :=
  match r with
  | Ok a => Ok (f a)
  | Raise e => Raise e
  end.

(** The filesystem below a directory.  A directory either lists its
    entries (in the order the operating system returns them) or listing it
    raises.  [is_dir] tells the two kinds of entry apart and does not
    raise. *)
Inductive entry :=
| File (name : string)
| Dir (name : string) (content : listing)
with listing :=
| Listed (entries : list entry)
| Raises (e : exn).

Definition name (item : entry) : string :=
  match item with
  | File n => n
  | Dir n _ => n
  end.

Definition is_dir (item : entry) : bool :=
  match item with
  | File _ => false
  | Dir _ _ => true
  end.

(** ** Strings *)

Definition nl : string := String "010"%char "".

(** [pattern in path_str]: substring containment. *)
Fixpoint str_in (pattern s : string) : bool :=
  String.prefix pattern s ||
  match s with
  | "" => false
  | String _ s' => str_in pattern s'
  end.

(** [sep.join(items)] *)
Definition join (sep : string) (items : list string) : string :=
  String.concat sep items.

(** [str.isspace] on the ASCII range. *)
Definition isspace (c : ascii) : bool :=
  match c with
  | "009" | "010" | "011" | "012" | "013"
  | "028" | "029" | "030" | "031" | " " => true
  | _ => false
  end%char.

Fixpoint lstrip (s : string) : string :=
  match s with
  | "" => ""
  | String c s' => if isspace c then lstrip s' else s
  end.

Definition rstrip (s : string) : string :=
  String.rev (lstrip (String.rev s)).

(** [s.strip()] *)
Definition strip (s : string) : string := rstrip (lstrip s).

(** Truth value of a Python string. *)
Definition truthy (s : string) : bool :=
  match s with
  | "" => false
  | _ => true
  end.

(** [s.split(sep)] for a non-empty separator: the pieces between the
    occurrences of [sep], found from the left without overlap.  [skip]
    counts the characters of a found separator still to pass. *)
Fixpoint split_go (sep : string) (skip : nat) (piece s : string)
  : list string :=
  match s with
  | "" => [piece]
  | String c s' =>
      match skip with
      | S k => split_go sep k piece s'
      | 0 =>
          if String.prefix sep s
          then piece :: split_go sep (String.length sep - 1) "" s'
          else split_go sep 0 (piece +:+ String c "") s'
      end
  end.

Definition split (sep s : string) : list string := split_go sep 0 "" s.

(** [Path(s)]: the anchor and the parts of a POSIX path.  One leading
    separator, or three and more, make the root; exactly two are kept; the
    empty components and the dots between separators are dropped. *)
Fixpoint leading_seps (s : string) : nat :=
  match s with
  | String "/"%char s' => S (leading_seps s')
  | _ => 0
  end.

Definition path_anchor (s : string) : string :=
  match leading_seps s with
  | 0 => ""
  | 2 => "//"
  | _ => "/"
  end.

Definition path_parts (s : string) : list string :=
  List.filter (λ part, negb (String.eqb part "") && negb (String.eqb part "."))
    (split "/" s).

(** [str(Path(s))]: the path without anchor and parts is the current
    directory. *)
Definition path_str (s : string) : string :=
  match path_anchor s, path_parts s with
  | "", [] => "."
  | anchor, parts => anchor +:+ join "/" parts
  end.

(** [str(Path(root_path) / name)] for the name of a directory entry: the
    name is one more part.  Such a name is a part as it stands (not empty,
    no dot, no separator in it), so the string of a child, read again by
    the recursive call, is the child. *)
Definition path_child (root_path name : string) : string :=
  path_anchor root_path +:+ join "/" (path_parts root_path ++ [name]).

(** A path ends with the separator. *)
Definition ends_with_sep (s : string) : bool :=
  match String.rev s with
  | String "/"%char _ => true
  | _ => false
  end.

(** ** [sorted]

    Python's [sorted] is stable; insertion from the right places an element
    before the elements it does not exceed.  Sibling paths share their
    parent, so they compare by their last part. *)
Section sorted.
Context {A : Type} (key : A → string).

Fixpoint insert_sorted (x : A) (l : list A) : list A :=
  match l with
  | [] => [x]
  | y :: l' =>
      if String.leb (key x) (key y) then x :: l else y :: insert_sorted x l'
  end.

Fixpoint sorted (l : list A) : list A :=
  match l with
  | [] => []
  | x :: l' => insert_sorted x (sorted l')
  end.
End sorted.

(** ** generate_structure.py *)

(** [should_ignore(path, ignore_patterns)] *)
Fixpoint should_ignore (path_str : string) (ignore_patterns : list string)
  : bool :=
  match ignore_patterns with
  | [] => false
  | pattern :: rest =>
      if str_in pattern path_str then true else should_ignore path_str rest
  end.

(** A [for] loop whose body updates a local variable and may raise: the
    loop stops at the first exception, keeping the variable as it is. *)
Fixpoint for_each {A S} (body : A → S → S * option exn) (l : list A) (s : S)
  : S * option exn :=
  match l with
  | [] => (s, None)
  | x :: l' =>
      match body x s with
      | (s', None) => for_each body l' s'
      | (s', Some e) => (s', Some e)
      end
  end.

Definition file_tag (n : string) : string := "<file name='" +:+ n +:+ "'/>".
Definition empty_folder_tag (n : string) : string :=
  "<folder name='" +:+ n +:+ "'/>".
Definition folder_tag (n sub_structure : string) : string :=
  "<folder name='" +:+ n +:+ "'>" +:+ nl +:+ sub_structure +:+ "</folder>".

Section generate.
Variable ignore_patterns : list string.

(** The body of the loop over the sorted listing; [recurse] is the
    recursive call on a subdirectory. *)
Definition loop_body (recurse : string → listing → result string)
    (root_path : string) (item : entry) (items : list string)
  : list string * option exn :=
  let item_path := path_child root_path (name item) in
  if should_ignore item_path ignore_patterns then (items, None)
  else
    match item with
    | Dir n content =>
        match recurse item_path content with
        | Raise e => (items, Some e)
        | Ok sub_structure =>
            if truthy (strip sub_structure)
            then (items ++ [folder_tag n sub_structure], None)
            else (items ++ [empty_folder_tag n], None)
        end
    | File n => (items ++ [file_tag n], None)
    end.

(** The [try] block: listing the directory may raise before the first
    iteration. *)
Definition try_block (recurse : string → listing → result string)
    (root_path : string) (fs : listing) : list string * option exn :=
  match fs with
  | Raises e => ([], Some e)
  | Listed entries =>
      for_each (loop_body recurse root_path) (sorted name entries) []
  end.

(** [except PermissionError: pass], then [return "\n".join(items)]. *)
Definition handle (r : list string * option exn) : result string :=
  match r with
  | (items, None) => Ok (join nl items)
  | (items, Some PermissionError) => Ok (join nl items)
  | (_, Some e) => Raise e
  end.

(** The recursion is on [max_depth - current_depth], which the test at
    the head of the function makes decrease; [fuel] carries it. *)
Fixpoint generate_from (fuel : nat) (root_path : string)
    (max_depth current_depth : nat) (fs : listing) : result string :=
  match fuel with
  | 0 => Ok ""
  | S fuel' =>
      if bool_decide (max_depth ≤ current_depth) then Ok ""
      else
        handle
          (try_block
             (λ item content,
                generate_from fuel' item max_depth (current_depth + 1) content)
             root_path fs)
  end.

Definition generate_directory_structure (root_path : string)
    (max_depth current_depth : nat) (fs : listing) : result string :=
  generate_from (max_depth - current_depth) root_path max_depth current_depth
    fs.
End generate.

Definition default_max_depth : nat := 10.

(** [main]'s configuration. *)
Definition main_ignore_patterns : list string :=
  [ "node_modules"; ".git"; "dist"; "build"; ".next"; "coverage";
    ".nyc_output"; "*.log"; ".DS_Store"; "Thumbs.db"; "__pycache__";
    ".pytest_cache"; "venv"; "env"; ".env"; "generate_structure.py";
    "watch_structure.py"; "start-structure-watcher.bat" ].

Definition output_path : string := ".cursor/rules/file-structure.mdc".

Definition output_of (structure : string) : string :=
  "# Project File Structure

This file is auto-generated to help Cursor AI understand the project structure.

<project_structure>
" +:+ structure +:+ "
</project_structure>

## Key Directories

- `src/` - Main source code
- `src/components/` - React components
- `src/pages/` - Page components
- `src/services/` - API and business logic services
- `src/types/` - TypeScript type definitions
- `src/utils/` - Utility functions
- `src/contexts/` - React contexts
- `src/hooks/` - Custom React hooks
- `api/` - Backend API endpoints
- `config/` - Configuration files
- `docs/` - Project documentation
- `public/` - Static assets

## Important Files

- `package.json` - Node.js dependencies and scripts
- `vite.config.ts` - Vite build configuration
- `tailwind.config.js` - Tailwind CSS configuration
- `tsconfig.json` - TypeScript configuration
- `vercel.json` - Vercel deployment configuration
".

(** The number [main] prints in its last line. *)
Definition summary_count (structure : string) : nat :=
  length (split "<file" structure).

(** What a run of [main] leaves behind: the file written and the lines
    printed.  Creating the directory and writing the file are taken to
    succeed. *)
Record main_effects := {
  written : string * string;
  printed : list string;
}.

(** [main()], run in a directory whose listing is [fs]. *)
Definition main (fs : listing) : result main_effects :=
  match generate_directory_structure main_ignore_patterns "."
          default_max_depth 0 fs with
  | Raise e => Raise e
  | Ok structure =>
      Ok {| written := (output_path, output_of structure);
            printed :=
              [ "✅ Directory structure generated: " +:+ output_path;
                "📁 Found " +:+ pretty (summary_count structure)
                  +:+ " files and folders" ] |}
  end.

(** ** watch_structure.py *)

(** [os.path.join(a, b)] *)
Definition os_path_join (a b : string) : string :=
  if String.prefix "/" b then b
  else if String.eqb a "" || ends_with_sep a then a +:+ b
  else a +:+ "/" +:+ b.

(** [os.walk(top)], top-down, as the list of the triples it yields.  The
    caller may replace the contents of [dirs] between the yield and the
    descent, [update_dirs] is that replacement; the walk descends into the
    subdirectories whose name is still listed.  A directory that cannot be
    listed yields nothing, a top that is no directory neither. *)
Fixpoint os_walk (update_dirs : list string → list string) (top : string)
    (fs : listing) : list (string * list string * list string) :=
  match fs with
  | Raises _ => []
  | Listed entries =>
      let dirs := List.map name (List.filter is_dir entries) in
      let files :=
        List.map name (List.filter (λ e, negb (is_dir e)) entries) in
      (top, dirs, files) ::
      List.flat_map
        (λ e, match e with
              | Dir n content =>
                  if bool_decide (n ∈ update_dirs dirs)
                  then os_walk update_dirs (os_path_join top n) content
                  else []
              | File _ => []
              end)
        entries
  end.

Definition os_walk_top (update_dirs : list string → list string)
    (top : entry) : list (string * list string * list string) :=
  match top with
  | Dir n content => os_walk update_dirs n content
  | File _ => []
  end.

(** What one poll of the watcher sees: the entries of the working
    directory, the timestamp [os.path.getmtime] returns for a path ([None]
    when it raises [OSError]), and how a [subprocess.run] would end.  The
    watcher only compares timestamps for equality; they are integers
    here. *)
Inductive run_outcome :=
| Completed (returncode : Z) (stderr : string)
| RunFailed (message : string).

Record environment := {
  cwd : list entry;
  getmtime : string → option Z;
  subprocess_run : run_outcome;
}.

(** What the watcher does to the outside. *)
Inductive event :=
| Print (line : string)
| SubprocessRun (argv : list string)
| Sleep (seconds : nat).

#[global] Instance event_eq_dec : EqDecision event.
Proof. solve_decision. Defined.

Definition watch_dirs : list string :=
  ["src"; "api"; "config"; "docs"; "public"].

Definition skipped_dirs : list string :=
  ["node_modules"; ".git"; "dist"; "build"].

(** [dirs[:] = [d for d in dirs if d not in [...]]] *)
Definition keep_dirs (dirs : list string) : list string :=
  List.filter (λ d, negb (bool_decide (d ∈ skipped_dirs))) dirs.

(** [os.path.exists(watch_dir)] and the entry it names. *)
Definition lookup_entry (n : string) (entries : list entry) : option entry :=
  List.find (λ e, String.eqb (name e) n) entries.

(** The state of one poll: the table and the [changed] flag. *)
Definition poll_state : Type := gmap string Z * bool.

(** The body of [for file in files]. *)
Definition check_file (env : environment) (root : string) (st : poll_state)
    (file : string) : poll_state :=
  let '(last_modified, changed) := st in
  let file_path := os_path_join root file in
  match getmtime env file_path with
  | None => st
  | Some current_modified =>
      if match last_modified !! file_path with
         | None => true
         | Some recorded => negb (Z.eqb recorded current_modified)
         end
      then (<[file_path := current_modified]> last_modified, true)
      else st
  end.

(** The body of [for root, dirs, files in os.walk(watch_dir)]. *)
Definition check_triple (env : environment) (st : poll_state)
    (triple : string * list string * list string) : poll_state :=
  let '(root, _, files) := triple in
  foldl (check_file env root) st files.

(** The body of [for watch_dir in watch_dirs]. *)
Definition check_watch_dir (env : environment) (st : poll_state)
    (watch_dir : string) : poll_state :=
  match lookup_entry watch_dir (cwd env) with
  | None => st
  | Some top => foldl (check_triple env) st (os_walk_top keep_dirs top)
  end.

Definition scan (env : environment) (last_modified : gmap string Z)
  : poll_state :=
  foldl (check_watch_dir env) (last_modified, false) watch_dirs.

(** [if changed: ...] *)
Definition regenerate (env : environment) : list event :=
  [ Print "🔄 Changes detected, regenerating structure...";
    SubprocessRun ["python"; "generate_structure.py"];
    match subprocess_run env with
    | Completed returncode stderr =>
        if Z.eqb returncode 0 then Print "✅ Structure updated!"
        else Print ("❌ Error updating structure: " +:+ stderr)
    | RunFailed message => Print ("❌ Error updating structure: " +:+ message)
    end ].

(** One pass through the body of [while True]. *)
Definition iteration (env : environment) (last_modified : gmap string Z)
  : gmap string Z * list event :=
  let '(last_modified', changed) := scan env last_modified in
  (last_modified', (if changed then regenerate env else []) ++ [Sleep 2]).

(** The loop, over the successive states of the outside, one for each
    iteration that runs before the interrupt. *)
Definition watch_loop (envs : list environment) (last_modified : gmap string Z)
  : gmap string Z * list event :=
  foldl (λ '(table, events) env,
           let '(table', events') := iteration env table in
           (table', events ++ events'))
        (last_modified, []) envs.

Definition watch_and_regenerate (envs : list environment)
  : gmap string Z * list event :=
  let '(table, events) := watch_loop envs ∅ in
  (table,
   [ Print "🌿 Starting directory structure watcher...";
     Print "📁 Watching for changes in project files...";
     Print "🔄 Press Ctrl+C to stop" ]
   ++ events ++ [Print (nl +:+ "👋 Stopping watcher...")]).

(** How often a trace starts the generator. *)
Definition invocations (events : list event) : nat :=
  length
    (List.filter
       (λ ev, match ev with SubprocessRun _ => true | _ => false end)
       events).

(** ** Definitions the statements below use *)

(** The entries of a listing the generator does not skip. *)
Definition visible (ignore_patterns : list string) (root_path : string)
    (item : entry) : bool :=
  negb (should_ignore (path_child root_path (name item)) ignore_patterns).

(** Mapping a call that may raise over a list: the first exception ends
    it. *)
Fixpoint mapM_result {A B} (f : A → result B) (l : list A)
  : result (list B) :=
  match l with
  | [] => Ok []
  | x :: l' =>
      match f x with
      | Raise e => Raise e
      | Ok y => result_map (cons y) (mapM_result f l')
      end
  end.

(** The rendering of one entry, in words: a file is a self-closing file
    tag; a directory is a self-closing folder tag when the rendering of
    its content is empty, and otherwise a folder tag around that
    rendering. *)
Definition render_item (ignore_patterns : list string) (root_path : string)
    (max_depth depth : nat) (item : entry) : result string :=
  match item with
  | File n => Ok (file_tag n)
  | Dir n content =>
      match generate_directory_structure ignore_patterns
              (path_child root_path n) max_depth depth content with
      | Raise e => Raise e
      | Ok "" => Ok (empty_folder_tag n)
      | Ok sub_structure => Ok (folder_tag n sub_structure)
      end
  end.

(** The tree without the entries the patterns match, at every level. *)
Fixpoint prune (ignore_patterns : list string) (root_path : string)
    (fs : listing) : listing :=
  match fs with
  | Raises e => Raises e
  | Listed entries =>
      Listed
        (List.flat_map
           (λ item,
              if should_ignore (path_child root_path (name item)) ignore_patterns
              then []
              else
                match item with
                | File n => [File n]
                | Dir n content =>
                    [Dir n (prune ignore_patterns (path_child root_path n) content)]
                end)
           entries)
  end.

(** The path strings of all entries below a directory. *)
Fixpoint all_paths (root_path : string) (fs : listing) : list string :=
  match fs with
  | Raises _ => []
  | Listed entries =>
      List.flat_map
        (λ item,
           path_child root_path (name item) ::
           match item with
           | File _ => []
           | Dir n content => all_paths (path_child root_path n) content
           end)
        entries
  end.

(** The tree cut [levels] levels below its root: the directories at the
    cut are left without content. *)
Fixpoint truncate (levels : nat) (fs : listing) : listing :=
  match levels with
  | 0 => Listed []
  | S levels' =>
      match fs with
      | Raises e => Raises e
      | Listed entries =>
          Listed
            (List.map
               (λ item,
                  match item with
                  | File n => File n
                  | Dir n content => Dir n (truncate levels' content)
                  end)
               entries)
      end
  end.

(** The same tree, its directories listed in another order.  The names
    in a directory are distinct. *)
Inductive relisted : listing → listing → Prop :=
| relisted_raises e : relisted (Raises e) (Raises e)
| relisted_listed entries entries' entries'' :
    NoDup (List.map name entries) →
    entries ≡ₚ entries' →
    Forall2 relisted_entry entries' entries'' →
    relisted (Listed entries) (Listed entries'')
with relisted_entry : entry → entry → Prop :=
| relisted_file n : relisted_entry (File n) (File n)
| relisted_dir n content content' :
    relisted content content' →
    relisted_entry (Dir n content) (Dir n content').

(** The number of places of a text at which a token starts. *)
Fixpoint count_tokens (token s : string) : nat :=
  (if String.prefix token s then 1 else 0) +
  match s with
  | "" => 0
  | String _ s' => count_tokens token s'
  end.

(** The tags written with double quotes. *)
Definition dquote : string := String "034"%char "".
Definition dquoted_file_tag (n : string) : string :=
  "<file name=" +:+ dquote +:+ n +:+ dquote +:+ "/>".
Definition dquoted_empty_folder_tag (n : string) : string :=
  "<folder name=" +:+ dquote +:+ n +:+ dquote +:+ "/>".
Definition dquoted_folder_open_tag (n : string) : string :=
  "<folder name=" +:+ dquote +:+ n +:+ dquote +:+ ">".

(** A name ends in [suffix]. *)
Definition ends_with (suffix s : string) : bool :=
  String.prefix (String.rev suffix) (String.rev s).

(** The paths of the files one poll reads the timestamp of, in order. *)
Definition triple_paths (triple : string * list string * list string)
  : list string :=
  let '(root, _, files) := triple in List.map (os_path_join root) files.

Definition walked_files (env : environment) : list string :=
  List.flat_map
    (λ watch_dir,
       match lookup_entry watch_dir (cwd env) with
       | None => []
       | Some top => List.flat_map triple_paths (os_walk_top keep_dirs top)
       end)
    watch_dirs.

(** A file below [top] that is reached through directories none of which
    has one of the skipped names. *)
Inductive walks_to : string → listing → string → Prop :=
| walks_to_file top entries f :
    File f ∈ entries →
    walks_to top (Listed entries) (os_path_join top f)
| walks_to_subdir top entries d content p :
    Dir d content ∈ entries →
    d ∉ skipped_dirs →
    walks_to (os_path_join top d) content p →
    walks_to top (Listed entries) p.

(** A file whose timestamp can be read and is not the recorded one. *)
Definition new_or_changed (env : environment) (last_modified : gmap string Z)
    (p : string) : Prop :=
  ∃ t, getmtime env p = Some t ∧ last_modified !! p ≠ Some t.

(** The order [sorted] sorts in. *)
Definition key_le {A : Type} (key : A → string) (x y : A) : Prop :=
  String.le (key x) (key y).

(** A text has a character that is no white space. *)
Fixpoint has_nonspace (s : string) : bool :=
  match s with
  | "" => false
  | String c s' => negb (isspace c) || has_nonspace s'
  end.

(** An item starts with the bracket of its tag. *)
Definition is_tag (s : string) : Prop := ∃ s', s = String "<" s'.

(** What [prune] makes of one entry. *)
Definition prune_item (pats : list string) (root_path : string) (item : entry)
  : list entry :=
  if should_ignore (path_child root_path (name item)) pats then []
  else
    match item with
    | File n => [File n]
    | Dir n content => [Dir n (prune pats (path_child root_path n) content)]
    end.

(** Two entries with the same name and kind whose contents the recursive
    calls render alike. *)
Definition alike (recurse1 recurse2 : string → listing → result string)
    (root_path : string) (item1 item2 : entry) : Prop :=
  match item1, item2 with
  | File n1, File n2 => n1 = n2
  | Dir n1 content1, Dir n2 content2 =>
      n1 = n2 ∧
      recurse1 (path_child root_path n1) content1 =
      recurse2 (path_child root_path n1) content2
  | _, _ => False
  end.

(** What [truncate] makes of one entry. *)
Definition truncate_item (levels : nat) (item : entry) : entry :=
  match item with
  | File n => File n
  | Dir n content => Dir n (truncate levels content)
  end.

(** The tree in which every directory whose listing is denied is an empty
    directory. *)
Fixpoint denied_as_empty (fs : listing) : listing :=
  match fs with
  | Raises PermissionError => Listed []
  | Raises e => Raises e
  | Listed entries =>
      Listed
        (List.map
           (λ item,
              match item with
              | File n => File n
              | Dir n content => Dir n (denied_as_empty content)
              end)
           entries)
  end.

(** The body of the innermost loop, on the path of the file. *)
Definition check_path (env : environment) (st : poll_state) (file_path : string)
  : poll_state :=
  match getmtime env file_path with
  | None => st
  | Some current_modified =>
      if match st.1 !! file_path with
         | None => true
         | Some recorded => negb (Z.eqb recorded current_modified)
         end
      then (<[file_path := current_modified]> st.1, true)
      else st
  end.

(** The scenario of the specification. *)
Definition scenario : listing :=
  Listed [ Dir "src" (Listed [File "b.ts"; File "a.ts"]);
           Dir "node_modules" (Listed [File "x.js"]);
           Dir "docs" (Listed []) ].

(** A working directory for the watcher. *)
Definition poll_example : environment :=
  {| cwd := [ Dir "src"
                (Listed [ File "a.ts";
                          Dir "build" (Listed [File "x"]);
                          Dir "mybuild" (Listed [File "y"]) ]);
              File "api" ];
     getmtime :=
       λ p, if String.eqb p "src/a.ts" then Some 5%Z
            else if String.eqb p "src/mybuild/y" then Some 7%Z
            else None;
     subprocess_run := Completed 0 "" |}.

(** A tree in which no listing fails, unless for want of permission. *)
Inductive readable : listing → Prop :=
| readable_denied : readable (Raises PermissionError)
| readable_listed entries :
    Forall readable_entry entries → readable (Listed entries)
with readable_entry : entry → Prop :=
| readable_file n : readable_entry (File n)
| readable_dir n content : readable content → readable_entry (Dir n content).

(** A tree with nothing below [levels] levels: its directories at that
    level are empty. *)
Fixpoint within_depth (levels : nat) (fs : listing) : Prop :=
  match levels with
  | 0 => fs = Listed []
  | S levels' =>
      match fs with
      | Raises _ => True
      | Listed entries =>
          Forall
            (λ item,
               match item with
               | File _ => True
               | Dir _ content => within_depth levels' content
               end)
            entries
      end
  end.

(** A text without its first [k] characters. *)
Fixpoint skip_chars (k : nat) (s : string) : string :=
  match k, s with
  | 0, _ => s
  | S _, "" => ""
  | S k', String _ s' => skip_chars k' s'
  end.

(** How often a trace sleeps. *)
Definition sleeps (events : list event) : nat :=
  length
    (List.filter (λ ev, match ev with Sleep _ => true | _ => false end) events).

(** What the watcher prints after a run of the generator. *)
Definition report (outcome : run_outcome) : string :=
  match outcome with
  | Completed 0 _ => "✅ Structure updated!"
  | Completed _ stderr => "❌ Error updating structure: " +:+ stderr
  | RunFailed message => "❌ Error updating structure: " +:+ message
  end.

(** A directory tree three levels deep, and a poll in which no timestamp
    can be read. *)
Definition deep_example : listing :=
  Listed [ Dir "a" (Listed [ Dir "b" (Listed [File "c"]) ]); File "d" ].

Definition unreadable_example : environment :=
  {| cwd := [ Dir "src" (Listed [File "a.ts"]) ];
     getmtime := λ _, None;
     subprocess_run := RunFailed "python: not found" |}.

(** A file that the generator comes to: it lies above the depth cutoff,
    it is not ignored, and each directory between the root and it is
    listed and not ignored. *)
Inductive shown_file (ignore_patterns : list string) (max_depth : nat)
  : string → nat → listing → string → Prop :=
| shown_here root_path current_depth entries n :
    current_depth < max_depth →
    File n ∈ entries →
    should_ignore (path_child root_path n) ignore_patterns = false →
    shown_file ignore_patterns max_depth root_path current_depth
      (Listed entries) n
| shown_below root_path current_depth entries d content n :
    current_depth < max_depth →
    Dir d content ∈ entries →
    should_ignore (path_child root_path d) ignore_patterns = false →
    shown_file ignore_patterns max_depth (path_child root_path d)
      (current_depth + 1) content n →
    shown_file ignore_patterns max_depth root_path current_depth
      (Listed entries) n.

(** * Properties *)

(** ** Strings *)

Lemma app_String a s t : String a s +:+ t = String a (s +:+ t).
Proof. reflexivity. Qed.

Lemma app_empty_l s : "" +:+ s = s.
Proof. reflexivity. Qed.

Lemma app_empty_r s : s +:+ "" = s.
Proof. induction s as [|a s IH]; [done|]. by rewrite app_String, IH. Qed.

Lemma app_assoc_str s t u : (s +:+ t) +:+ u = s +:+ (t +:+ u).
Proof. induction s as [|a s IH]; [done|]. by rewrite !app_String, IH. Qed.

Lemma prefix_spec p s : String.prefix p s = true ↔ ∃ b, s = p +:+ b.
Proof.
  revert s. induction p as [|a p IH]; intros s.
  - destruct s; simpl; split; eauto.
  - destruct s as [|c s]; simpl.
    + split; [done|]. intros [b Hb]. by rewrite app_String in Hb.
    + destruct (ascii_dec a c) as [->|Hne].
      * rewrite IH. split; intros [b Hb]; exists b.
        { by rewrite app_String, Hb. }
        { rewrite app_String in Hb. by simplify_eq. }
      * split; [done|]. intros [b Hb]. rewrite app_String in Hb. by simplify_eq.
Qed.

(** [str_in] is containment as a substring. *)
Lemma str_in_empty p : str_in p "" = String.prefix p "".
Proof. unfold str_in. by rewrite orb_false_r. Qed.

Lemma str_in_String p c s :
  str_in p (String c s) = String.prefix p (String c s) || str_in p s.
Proof. reflexivity. Qed.

Lemma str_in_spec p s : str_in p s = true ↔ ∃ a b, s = a +:+ p +:+ b.
Proof.
  induction s as [|c s IH]; [rewrite str_in_empty|rewrite str_in_String].
  - rewrite prefix_spec. split.
    + intros [b Hb]. by exists "", b.
    + intros ([|??] & b & Hb); [by exists b|by rewrite app_String in Hb].
  - rewrite orb_true_iff, prefix_spec, IH. split.
    + intros [[b Hb]|(a & b & Hb)].
      * by exists "", b.
      * exists (String c a), b. by rewrite app_String, Hb.
    + intros ([|c' a] & b & Hb).
      * left. by exists b.
      * right. rewrite app_String in Hb. simplify_eq. by exists a, b.
Qed.

Lemma str_in_app_l p a s : str_in p s = true → str_in p (a +:+ s) = true.
Proof.
  rewrite !str_in_spec. intros (x & y & ->). exists (a +:+ x), y.
  by rewrite app_assoc_str.
Qed.

Lemma str_in_app_r p s b : str_in p s = true → str_in p (s +:+ b) = true.
Proof.
  rewrite !str_in_spec. intros (x & y & ->). exists x, (y +:+ b).
  by rewrite !app_assoc_str.
Qed.

Lemma should_ignore_spec path_str ignore_patterns :
  should_ignore path_str ignore_patterns = true ↔
  ∃ pattern, pattern ∈ ignore_patterns ∧ str_in pattern path_str = true.
Proof.
  induction ignore_patterns as [|p ps IH]; simpl.
  - split; [done|]. intros (? & H & _). by apply elem_of_nil in H.
  - destruct (str_in p path_str) eqn:Hp.
    + split; [|done]. intros _. exists p. split; [left|done].
    + rewrite IH. split.
      * intros (q & ? & ?). exists q. split; [by right|done].
      * intros (q & [->|?]%elem_of_cons & ?); [congruence|eauto].
Qed.

Lemma should_ignore_false path_str ignore_patterns :
  should_ignore path_str ignore_patterns = false ↔
  ∀ pattern, pattern ∈ ignore_patterns → str_in pattern path_str = false.
Proof.
  rewrite <-not_true_iff_false, should_ignore_spec. split.
  - intros H p Hp. apply not_true_iff_false. eauto.
  - intros H (p & Hp & Hin). rewrite (H p Hp) in Hin. done.
Qed.

(** The name of an entry is the end of its path. *)
Lemma join_snoc sep l n :
  join sep (l ++ [n]) =
  match l with
  | [] => n
  | _ => join sep l +:+ sep +:+ n
  end.
Proof.
  induction l as [|x l IH]; [done|]. destruct l as [|y l]; [done|].
  change (join sep ((x :: y :: l) ++ [n]))
    with (x +:+ sep +:+ join sep ((y :: l) ++ [n])).
  rewrite IH.
  change (join sep (x :: y :: l)) with (x +:+ sep +:+ join sep (y :: l)).
  by rewrite !app_assoc_str.
Qed.

Lemma path_child_suffix root_path n : ∃ a, path_child root_path n = a +:+ n.
Proof.
  unfold path_child. rewrite join_snoc. destruct (path_parts root_path).
  - by eexists.
  - eexists. by rewrite <-!app_assoc_str.
Qed.

Lemma should_ignore_name root_path n ignore_patterns :
  should_ignore n ignore_patterns = true →
  should_ignore (path_child root_path n) ignore_patterns = true.
Proof.
  rewrite !should_ignore_spec. intros (p & Hp & Hin). exists p. split; [done|].
  destruct (path_child_suffix root_path n) as [a ->]. by apply str_in_app_l.
Qed.

Lemma truthy_lstrip s : truthy (lstrip s) = has_nonspace s.
Proof.
  induction s as [|c s IH]; [done|]. simpl. by destruct (isspace c).
Qed.

Lemma has_nonspace_lstrip s : has_nonspace (lstrip s) = has_nonspace s.
Proof.
  induction s as [|c s IH]; [done|]. simpl. destruct (isspace c) eqn:Hc; [done|].
  simpl. by rewrite Hc.
Qed.

Lemma has_nonspace_rev_app s t :
  has_nonspace (String.rev_app s t) = has_nonspace s || has_nonspace t.
Proof.
  revert t. induction s as [|c s IH]; intros t; [done|]. simpl.
  rewrite IH. simpl. by destruct (isspace c), (has_nonspace s), (has_nonspace t).
Qed.

Lemma truthy_rev_app s t : truthy (String.rev_app s t) = truthy s || truthy t.
Proof.
  revert t. induction s as [|c s IH]; intros t; [done|]. simpl.
  rewrite IH. simpl. by rewrite orb_true_r.
Qed.

Lemma truthy_strip s : truthy (strip s) = has_nonspace s.
Proof.
  unfold strip, rstrip, String.rev.
  rewrite truthy_rev_app, orb_false_r, truthy_lstrip.
  by rewrite has_nonspace_rev_app, orb_false_r, has_nonspace_lstrip.
Qed.

(** ** [sorted] *)

Section sorted_facts.
Context {A : Type} (key : A → string).

#[local] Instance key_le_trans : Transitive (key_le key).
Proof. intros x y z. unfold key_le. apply transitivity. Qed.

Lemma leb_key_le x y : String.leb (key x) (key y) = true ↔ key_le key x y.
Proof. unfold key_le, String.le. by rewrite Is_true_true. Qed.

Lemma leb_false_key_le x y : String.leb (key x) (key y) = false → key_le key y x.
Proof.
  intros H. destruct (total String.le (key x) (key y)) as [Hle|Hle]; [|done].
  apply leb_key_le in Hle. congruence.
Qed.

Lemma insert_sorted_perm x l : insert_sorted key x l ≡ₚ x :: l.
Proof.
  induction l as [|y l IH]; simpl; [done|].
  destruct (String.leb _ _); [done|]. rewrite IH. apply Permutation_swap.
Qed.

Lemma sorted_perm l : sorted key l ≡ₚ l.
Proof.
  induction l as [|x l IH]; simpl; [done|]. by rewrite insert_sorted_perm, IH.
Qed.

Lemma insert_sorted_StronglySorted x l :
  StronglySorted (key_le key) l →
  StronglySorted (key_le key) (insert_sorted key x l).
Proof.
  induction 1 as [|y l Hl IH Hy]; simpl.
  - repeat constructor.
  - destruct (String.leb (key x) (key y)) eqn:Hxy.
    + apply leb_key_le in Hxy. constructor; [by constructor|].
      constructor; [done|]. eapply Forall_impl; [exact Hy|].
      intros z Hz. by etrans.
    + apply leb_false_key_le in Hxy. constructor; [done|].
      rewrite insert_sorted_perm. by constructor.
Qed.

Lemma sorted_StronglySorted l : StronglySorted (key_le key) (sorted key l).
Proof.
  induction l as [|x l IH]; simpl; [constructor|].
  by apply insert_sorted_StronglySorted.
Qed.

Lemma NoDup_key_inj l x y :
  NoDup (List.map key l) → x ∈ l → y ∈ l → key x = key y → x = y.
Proof.
  induction l as [|z l IH]; simpl; intros Hnd Hx Hy Hk.
  { by apply elem_of_nil in Hx. }
  apply NoDup_cons in Hnd as [Hz Hnd].
  apply elem_of_cons in Hx as [->|Hx]; apply elem_of_cons in Hy as [->|Hy];
    [done| | |by apply IH].
  - destruct Hz. rewrite Hk. by apply (list_elem_of_fmap_2 key).
  - destruct Hz. rewrite <-Hk. by apply (list_elem_of_fmap_2 key).
Qed.

(** The order of the listing does not show in the sorted listing. *)
Lemma sorted_permutation l1 l2 :
  NoDup (List.map key l1) → l1 ≡ₚ l2 → sorted key l1 = sorted key l2.
Proof.
  intros Hnd Hperm.
  apply (StronglySorted_unique_strong (key_le key)); try apply sorted_StronglySorted.
  - intros x y Hx Hy Hxy Hyx. rewrite sorted_perm in Hx, Hy.
    rewrite <-Hperm in Hy. apply (NoDup_key_inj l1); [done..|].
    by apply (anti_symm String.le).
  - by rewrite !sorted_perm.
Qed.

Lemma insert_sorted_head x l :
  (∀ z, z ∈ l → key_le key x z) → insert_sorted key x l = x :: l.
Proof.
  destruct l as [|y l]; simpl; [done|]. intros H.
  assert (key_le key x y) as Hxy%leb_key_le by (apply H; left).
  by rewrite Hxy.
Qed.

(** A map that keeps the key and drops some elements commutes with
    sorting. *)
Section flat_map.
Context (f : A → list A).
Hypothesis f_key : ∀ x, f x = [] ∨ ∃ y, f x = [y] ∧ key y = key x.

Lemma flat_map_key_le x l z :
  Forall (key_le key x) l → z ∈ List.flat_map f l → key_le key x z.
Proof.
  induction 1 as [|y l Hy Hl IH]; simpl; [by intros ?%elem_of_nil|].
  intros [Hz|Hz]%elem_of_app; [|by apply IH].
  destruct (f_key y) as [Hf|(y' & Hf & Hk)]; rewrite Hf in Hz.
  - by apply elem_of_nil in Hz.
  - apply list_elem_of_singleton in Hz as ->. unfold key_le in *. by rewrite Hk.
Qed.

Lemma flat_map_insert_sorted x l :
  StronglySorted (key_le key) l →
  List.flat_map f (insert_sorted key x l) =
  match f x with
  | [] => List.flat_map f l
  | y :: _ => insert_sorted key y (List.flat_map f l)
  end.
Proof.
  induction 1 as [|y l Hl IH Hy]; simpl.
  { rewrite app_nil_r. by destruct (f_key x) as [->|(x' & -> & _)]. }
  destruct (String.leb (key x) (key y)) eqn:Hxy; simpl.
  - destruct (f_key x) as [->|(x' & -> & Hk)]; [done|]. simpl.
    symmetry. apply insert_sorted_head. intros z Hz.
    apply leb_key_le in Hxy.
    assert (key_le key x z) as Hxz.
    { apply (flat_map_key_le x (y :: l)); [|done]. constructor; [done|].
      eapply Forall_impl; [exact Hy|]. intros ??. by etrans. }
    unfold key_le in *. by rewrite Hk.
  - rewrite IH. destruct (f_key x) as [->|(x' & -> & Hk)]; [done|].
    destruct (f_key y) as [->|(y' & -> & Hk')]; [done|]. simpl.
    by rewrite Hk, Hk', Hxy.
Qed.

Lemma sorted_flat_map l :
  sorted key (List.flat_map f l) = List.flat_map f (sorted key l).
Proof.
  induction l as [|x l IH]; simpl; [done|].
  rewrite flat_map_insert_sorted by apply sorted_StronglySorted.
  destruct (f_key x) as [->|(x' & -> & Hk)]; simpl; by rewrite IH.
Qed.
End flat_map.

(** So does a relation that keeps the key. *)
Section Forall2.
Context (R : A → A → Prop).
Hypothesis R_key : ∀ x y, R x y → key x = key y.

Lemma insert_sorted_Forall2 x y l1 l2 :
  R x y → Forall2 R l1 l2 →
  Forall2 R (insert_sorted key x l1) (insert_sorted key y l2).
Proof.
  intros Hxy. induction 1 as [|x' y' l1 l2 Hxy' Hl IH]; simpl.
  - by repeat constructor.
  - rewrite <-(R_key _ _ Hxy), <-(R_key _ _ Hxy').
    destruct (String.leb _ _); by repeat constructor.
Qed.

Lemma sorted_Forall2 l1 l2 :
  Forall2 R l1 l2 → Forall2 R (sorted key l1) (sorted key l2).
Proof.
  induction 1; simpl; [constructor|]. by apply insert_sorted_Forall2.
Qed.
End Forall2.
End sorted_facts.

(** ** The generator *)

(** The function as it is written: the depth test, then the guarded loop,
    with the recursive call one level deeper. *)
Lemma generate_directory_structure_unfold pats root_path max_depth current_depth fs :
  generate_directory_structure pats root_path max_depth current_depth fs =
  if bool_decide (max_depth ≤ current_depth) then Ok ""
  else
    handle (try_block pats
              (λ item content,
                 generate_directory_structure pats item max_depth
                   (current_depth + 1) content)
              root_path fs).
Proof.
  unfold generate_directory_structure. case_bool_decide as Hd.
  - by replace (max_depth - current_depth) with 0 by lia.
  - destruct (max_depth - current_depth) as [|fuel] eqn:Hf; [lia|]. simpl.
    rewrite bool_decide_false by done.
    by replace (max_depth - (current_depth + 1)) with fuel by lia.
Qed.

Lemma generate_at_max_depth pats root_path max_depth current_depth fs :
  max_depth ≤ current_depth →
  generate_directory_structure pats root_path max_depth current_depth fs = Ok "".
Proof.
  intros. rewrite generate_directory_structure_unfold. by rewrite bool_decide_true.
Qed.

Lemma for_each_invariant {A S} (P : S → Prop) (body : A → S → S * option exn) l s :
  (∀ x s, P s → P (body x s).1) → P s → P (for_each body l s).1.
Proof.
  intros Hbody. revert s. induction l as [|x l IH]; intros s Hs; simpl; [done|].
  specialize (Hbody x s Hs). destruct (body x s) as [s' [e|]]; simpl in *; auto.
Qed.

Lemma handle_not_PermissionError r : handle r ≠ Raise PermissionError.
Proof. by destruct r as [items [[]|]]. Qed.

Lemma generate_not_PermissionError pats root_path max_depth current_depth fs :
  generate_directory_structure pats root_path max_depth current_depth fs
  ≠ Raise PermissionError.
Proof.
  rewrite generate_directory_structure_unfold. case_bool_decide; [done|].
  apply handle_not_PermissionError.
Qed.

Lemma join_tags items :
  Forall is_tag items → has_nonspace (join nl items) = truthy (join nl items).
Proof.
  destruct 1 as [|x items [x' ->] _]; [done|]. by destruct items.
Qed.

Lemma loop_body_tags pats recurse root_path item items :
  Forall is_tag items →
  Forall is_tag (loop_body pats recurse root_path item items).1.
Proof.
  intros Hitems. unfold loop_body. destruct (should_ignore _ _); [done|].
  destruct item as [n|n content]; simpl.
  - apply Forall_app. split; [done|]. repeat constructor. by eexists.
  - destruct (recurse _ _) as [sub|e]; [|done].
    destruct (truthy _); simpl; apply Forall_app; (split; [done|]);
      repeat constructor; by eexists.
Qed.

Lemma generate_blank pats root_path max_depth current_depth fs s :
  generate_directory_structure pats root_path max_depth current_depth fs = Ok s →
  truthy (strip s) = truthy s.
Proof.
  rewrite generate_directory_structure_unfold, truthy_strip.
  case_bool_decide; [by intros [= <-]|].
  set (recurse := λ item content, _).
  assert (Forall is_tag (try_block pats recurse root_path fs).1) as Htags.
  { destruct fs as [entries|e]; simpl; [|constructor].
    apply for_each_invariant; [|constructor].
    intros. by apply loop_body_tags. }
  destruct (try_block _ _ _ _) as [items [[]|]]; simpl in *; intros [= <-];
    by apply join_tags.
Qed.

Lemma handle_loop pats root_path max_depth depth l items :
  handle
    (for_each
       (loop_body pats
          (λ item content,
             generate_directory_structure pats item max_depth depth content)
          root_path)
       l items) =
  match mapM_result (render_item pats root_path max_depth depth)
          (List.filter (visible pats root_path) l) with
  | Ok rendered => Ok (join nl (items ++ rendered))
  | Raise e => Raise e
  end.
Proof.
  revert items. induction l as [|item l IH]; intros items; simpl.
  { by rewrite app_nil_r. }
  unfold loop_body at 1, visible at 1.
  destruct (should_ignore _ _); simpl; [apply IH|].
  destruct item as [n|n content]; simpl.
  - rewrite IH. destruct (mapM_result _ _); simpl; [|done].
    by rewrite <-app_assoc.
  - destruct (generate_directory_structure _ _ _ _ _) as [sub|e] eqn:Hsub.
    + rewrite (generate_blank _ _ _ _ _ _ Hsub).
      destruct sub; simpl; rewrite IH; destruct (mapM_result _ _); simpl;
        by rewrite <-?app_assoc.
    + simpl. destruct e; try done.
      by apply generate_not_PermissionError in Hsub.
Qed.

(** The rendering of a directory that can be listed: the renderings of
    its visible entries, in sorted order, joined by newlines. *)
Lemma generate_listed pats root_path max_depth current_depth entries :
  current_depth < max_depth →
  generate_directory_structure pats root_path max_depth current_depth (Listed entries) =
  result_map (join nl)
    (mapM_result (render_item pats root_path max_depth (current_depth + 1))
       (List.filter (visible pats root_path) (sorted name entries))).
Proof.
  intros Hd. rewrite generate_directory_structure_unfold.
  rewrite bool_decide_false by lia. simpl. rewrite handle_loop.
  by destruct (mapM_result _ _).
Qed.

Lemma generate_raises pats root_path max_depth current_depth e :
  current_depth < max_depth →
  generate_directory_structure pats root_path max_depth current_depth (Raises e) =
  if decide (e = PermissionError) then Ok "" else Raise e.
Proof.
  intros Hd. rewrite generate_directory_structure_unfold.
  rewrite bool_decide_false by lia. by destruct e.
Qed.

(** Induction over a tree and the trees below it. *)
Lemma listing_tree_ind (P : entry → Prop) (Q : listing → Prop) :
  (∀ n, P (File n)) →
  (∀ n content, Q content → P (Dir n content)) →
  (∀ entries, Forall P entries → Q (Listed entries)) →
  (∀ e, Q (Raises e)) →
  ∀ fs, Q fs.
Proof.
  intros HFile HDir HListed HRaises. fix IH 1.
  intros [entries|e]; [|apply HRaises].
  apply HListed. induction entries as [|item entries IHentries]; constructor; [|done].
  destruct item as [n|n content]; [apply HFile|]. apply HDir, IH.
Qed.

(** *** Ignored entries *)

Lemma prune_Listed pats root_path entries :
  prune pats root_path (Listed entries) =
  Listed (List.flat_map (prune_item pats root_path) entries).
Proof. reflexivity. Qed.

Lemma prune_item_key pats root_path item :
  prune_item pats root_path item = [] ∨
  ∃ item', prune_item pats root_path item = [item'] ∧ name item' = name item.
Proof.
  unfold prune_item. destruct (should_ignore _ _); [by left|].
  right. destruct item; eauto.
Qed.

Lemma for_each_prune pats recurse root_path l items :
  (∀ p content, recurse p (prune pats p content) = recurse p content) →
  for_each (loop_body pats recurse root_path)
    (List.flat_map (prune_item pats root_path) l) items =
  for_each (loop_body pats recurse root_path) l items.
Proof.
  intros Hrec. revert items. induction l as [|item l IH]; intros items; [done|].
  simpl. unfold prune_item at 1, loop_body at 2.
  destruct (should_ignore _ _) eqn:Hi; simpl; [apply IH|].
  destruct item as [n|n content]; simpl in *; unfold loop_body at 1; simpl;
    rewrite Hi.
  - apply IH.
  - rewrite Hrec. destruct (recurse _ _); [|done].
    destruct (truthy _); apply IH.
Qed.

Lemma generate_from_prune pats fuel root_path max_depth current_depth fs :
  generate_from pats fuel root_path max_depth current_depth
    (prune pats root_path fs) =
  generate_from pats fuel root_path max_depth current_depth fs.
Proof.
  revert root_path current_depth fs.
  induction fuel as [|fuel IH]; intros root_path current_depth fs; [done|].
  simpl. case_bool_decide; [done|]. f_equal.
  destruct fs as [entries|e]; [|done]. rewrite prune_Listed. simpl.
  rewrite (sorted_flat_map name) by apply prune_item_key.
  apply for_each_prune. intros p content. apply IH.
Qed.

Lemma all_paths_prune pats fs :
  ∀ root_path,
    Forall (λ p, should_ignore p pats = false)
      (all_paths root_path (prune pats root_path fs)).
Proof.
  revert fs.
  apply (listing_tree_ind
           (λ item, ∀ root_path,
              Forall (λ p, should_ignore p pats = false)
                (all_paths root_path (Listed (prune_item pats root_path item))))
           (λ fs, ∀ root_path,
              Forall (λ p, should_ignore p pats = false)
                (all_paths root_path (prune pats root_path fs)))).
  - intros n root_path. unfold prune_item.
    destruct (should_ignore _ _) eqn:Hi; simpl; [constructor|].
    by repeat constructor.
  - intros n content IH root_path. unfold prune_item.
    destruct (should_ignore _ _) eqn:Hi; simpl; [constructor|].
    constructor; [done|]. rewrite app_nil_r. apply IH.
  - intros entries IH root_path. rewrite prune_Listed. simpl.
    induction IH as [|item entries Hitem _ IHentries]; simpl; [constructor|].
    rewrite List.flat_map_app. apply Forall_app. split; [apply Hitem|apply IHentries].
  - intros e root_path. constructor.
Qed.

(** C1.  An entry whose path contains an ignore pattern is skipped with
    everything below it.  [should_ignore] is true exactly of the paths
    that hold a pattern as a substring; the rendering of a tree is the
    rendering of the tree from which every such entry, at every level, has
    been removed with its descendants; no path that is left holds a
    pattern; and taking one such entry out of a listing, whatever lies
    below it, does not change the rendering. *)
Theorem ignored_entries_are_skipped pats root_path max_depth current_depth :
  (∀ path_str,
     should_ignore path_str pats = true ↔
     ∃ pattern a b, pattern ∈ pats ∧ path_str = a +:+ pattern +:+ b) ∧
  (∀ fs,
     generate_directory_structure pats root_path max_depth current_depth fs =
     generate_directory_structure pats root_path max_depth current_depth
       (prune pats root_path fs)) ∧
  (∀ fs,
     Forall (λ p, should_ignore p pats = false)
       (all_paths root_path (prune pats root_path fs))) ∧
  (∀ before item after,
     should_ignore (path_child root_path (name item)) pats = true →
     generate_directory_structure pats root_path max_depth current_depth
       (Listed (before ++ item :: after)) =
     generate_directory_structure pats root_path max_depth current_depth
       (Listed (before ++ after))).
Proof.
  assert (∀ fs,
     generate_directory_structure pats root_path max_depth current_depth fs =
     generate_directory_structure pats root_path max_depth current_depth
       (prune pats root_path fs)) as Hprune.
  { intros fs. unfold generate_directory_structure.
    by rewrite generate_from_prune. }
  split.
  { intros path_str. rewrite should_ignore_spec. split.
    - intros (pattern & Hin & (a & b & Hab)%str_in_spec). by exists pattern, a, b.
    - intros (pattern & a & b & Hin & Hab). exists pattern. split; [done|].
      apply str_in_spec. by exists a, b. }
  split; [done|]. split; [intros fs; apply all_paths_prune|].
  intros before item after Hi.
  rewrite Hprune, (Hprune (Listed (before ++ after))). f_equal.
  rewrite !prune_Listed, !List.flat_map_app. simpl.
  unfold prune_item at 2. by rewrite Hi.
Qed.

Lemma ignored_entries_are_skipped_witness :
  generate_directory_structure main_ignore_patterns "." default_max_depth 0 scenario =
  generate_directory_structure main_ignore_patterns "." default_max_depth 0
    (Listed [ Dir "src" (Listed [File "b.ts"; File "a.ts"]);
              Dir "docs" (Listed []) ]).
Proof.
  apply (proj2 (proj2 (proj2 (ignored_entries_are_skipped
                                main_ignore_patterns "." default_max_depth 0)))
           [Dir "src" (Listed [File "b.ts"; File "a.ts"])]
           (Dir "node_modules" (Listed [File "x.js"]))
           [Dir "docs" (Listed [])]).
  reflexivity.
Defined.

(** *** Trees that render alike *)

Lemma for_each_Forall2 {A B S} (R : A → B → Prop)
    (body1 : A → S → S * option exn) (body2 : B → S → S * option exn) l1 l2 s :
  (∀ x y s, R x y → body1 x s = body2 y s) →
  Forall2 R l1 l2 →
  for_each body1 l1 s = for_each body2 l2 s.
Proof.
  intros Hbody Hl. revert s. induction Hl as [|x y l1 l2 Hxy _ IH]; intros s; [done|].
  simpl. rewrite (Hbody x y s Hxy). destruct (body2 y s) as [s' [e|]]; [done|apply IH].
Qed.

Lemma alike_name recurse1 recurse2 root_path item1 item2 :
  alike recurse1 recurse2 root_path item1 item2 → name item1 = name item2.
Proof. destruct item1, item2; simpl; try done. by intros [-> _]. Qed.

Lemma loop_body_alike pats recurse1 recurse2 root_path item1 item2 items :
  alike recurse1 recurse2 root_path item1 item2 →
  loop_body pats recurse1 root_path item1 items =
  loop_body pats recurse2 root_path item2 items.
Proof.
  destruct item1 as [n1|n1 c1], item2 as [n2|n2 c2]; simpl; try done.
  - by intros ->.
  - intros [-> Hrec]. unfold loop_body. simpl. by rewrite Hrec.
Qed.

Lemma try_block_alike pats recurse1 recurse2 root_path entries1 entries2 :
  Forall2 (alike recurse1 recurse2 root_path) entries1 entries2 →
  try_block pats recurse1 root_path (Listed entries1) =
  try_block pats recurse2 root_path (Listed entries2).
Proof.
  intros H. simpl.
  apply (for_each_Forall2 (alike recurse1 recurse2 root_path)).
  - intros. by apply loop_body_alike.
  - apply (sorted_Forall2 name); [|done]. apply alike_name.
Qed.

(** *** Depth *)

Lemma generate_truncate pats max_depth extra levels :
  ∀ root_path current_depth fs,
    max_depth - current_depth = levels →
    generate_directory_structure pats root_path max_depth current_depth fs =
    generate_directory_structure pats root_path (max_depth + extra) current_depth
      (truncate levels fs).
Proof.
  induction levels as [|levels IH]; intros root_path current_depth fs Hl.
  - rewrite generate_at_max_depth by lia. simpl.
    rewrite generate_directory_structure_unfold. by case_bool_decide.
  - rewrite !generate_directory_structure_unfold.
    rewrite !bool_decide_false by lia. f_equal.
    destruct fs as [entries|e]; [|done].
    change (truncate (S levels) (Listed entries))
      with (Listed (List.map (truncate_item levels) entries)).
    apply try_block_alike.
    induction entries as [|item entries IHentries]; simpl; constructor; [|done].
    destruct item as [n|n content]; simpl; [done|]. split; [done|].
    apply IH. lia.
Qed.

Lemma mapM_result_map {A B} (f : A → result B) (g : A → B) l :
  (∀ x, f x = Ok (g x)) → mapM_result f l = Ok (List.map g l).
Proof.
  intros Hfg. induction l as [|x l IH]; simpl; [done|]. by rewrite Hfg, IH.
Qed.

(** C5.  The default maximum depth is 10.  A call at a depth that has
    reached the maximum returns the empty text whatever is there, even a
    directory that cannot be listed; so a directory just above the cutoff
    is rendered as a self-closing tag, and the rendering of a tree is the
    rendering, under any larger maximum, of the tree cut at the maximum
    depth: nothing marks the cut and nothing is raised for what lies below
    it.  What lies above the cutoff is rendered: below the maximum depth
    the text of a directory is the renderings of its visible entries, in
    the order of their names, with a newline between them; at the last
    level before the cutoff these are the file tags and the self-closing
    folder tags of the visible entries, whatever the folders hold. *)
Theorem depth_truncation pats root_path max_depth current_depth fs :
  default_max_depth = 10 ∧
  (∀ k, generate_directory_structure pats root_path max_depth (max_depth + k) fs
        = Ok "") ∧
  (∀ n k, render_item pats root_path max_depth (max_depth + k) (Dir n fs)
          = Ok (empty_folder_tag n)) ∧
  (∀ extra,
     generate_directory_structure pats root_path max_depth current_depth fs =
     generate_directory_structure pats root_path (max_depth + extra) current_depth
       (truncate (max_depth - current_depth) fs)) ∧
  (∀ entries,
     current_depth < max_depth →
     generate_directory_structure pats root_path max_depth current_depth
       (Listed entries) =
     result_map (String.concat (String "010"%char ""))
       (mapM_result (render_item pats root_path max_depth (current_depth + 1))
          (List.filter (visible pats root_path) (sorted name entries)))) ∧
  (∀ entries,
     current_depth + 1 = max_depth →
     generate_directory_structure pats root_path max_depth current_depth
       (Listed entries) =
     Ok (String.concat (String "010"%char "")
           (List.map
              (λ item,
                 match item with
                 | File n => "<file name='" +:+ n +:+ "'/>"
                 | Dir n _ => "<folder name='" +:+ n +:+ "'/>"
                 end)
              (List.filter (visible pats root_path) (sorted name entries))))) ∧
  (∀ entries,
     sorted name entries ≡ₚ entries ∧
     StronglySorted (λ item item', String.le (name item) (name item'))
       (sorted name entries)) ∧
  (∀ item,
     visible pats root_path item = true ↔
     ∀ pattern, pattern ∈ pats →
       str_in pattern (path_child root_path (name item)) = false).
Proof.
  split; [done|]. split; [|split; [|split; [|split; [|split; [|split]]]]].
  - intros k. apply generate_at_max_depth. lia.
  - intros n k. simpl. by rewrite generate_at_max_depth by lia.
  - intros extra. by apply generate_truncate.
  - intros entries Hd. by apply generate_listed.
  - intros entries Hd. rewrite generate_listed by lia.
    rewrite (mapM_result_map _
               (λ item,
                  match item with
                  | File n => "<file name='" +:+ n +:+ "'/>"
                  | Dir n _ => "<folder name='" +:+ n +:+ "'/>"
                  end)); [done|].
    intros [n|n content]; simpl; [done|].
    by rewrite generate_at_max_depth by lia.
  - intros entries. split; [apply sorted_perm|].
    exact (sorted_StronglySorted name entries).
  - intros item. unfold visible. by rewrite negb_true_iff, should_ignore_false.
Qed.

Lemma depth_truncation_witness :
  generate_directory_structure [] "a" 2 1
    (Listed [ File "x"; Dir "gone" (Raises OSError);
              Dir "b" (Listed [File "c"]) ])
  = Ok ("<folder name='b'/>" +:+ String "010"%char "" +:+
        "<folder name='gone'/>" +:+ String "010"%char "" +:+
        "<file name='x'/>") ∧
  generate_directory_structure [] "." 2 0
    (Listed [ Dir "a" (Listed [ File "x"; Dir "gone" (Raises OSError);
                                Dir "b" (Listed [File "c"]) ]) ])
  = Ok ("<folder name='a'>" +:+ String "010"%char "" +:+
        "<folder name='b'/>" +:+ String "010"%char "" +:+
        "<folder name='gone'/>" +:+ String "010"%char "" +:+
        "<file name='x'/></folder>").
Proof.
  split.
  - destruct (depth_truncation [] "a" 2 1 (Listed []))
      as (_ & _ & _ & _ & _ & Hcut & _).
    rewrite Hcut by reflexivity. reflexivity.
  - destruct (depth_truncation [] "." 2 0 (Listed []))
      as (_ & _ & _ & _ & Habove & _).
    rewrite Habove by lia. reflexivity.
Defined.

(** With a maximum of two, the file two directories down is left out and
    the directory above it closes itself. *)
Example depth_two :
  generate_directory_structure [] "." 2 0
    (Listed [Dir "a" (Listed [Dir "b" (Listed [File "c"])])])
  = Ok ("<folder name='a'>" +:+ nl +:+ "<folder name='b'/></folder>").
Proof. reflexivity. Qed.

(** *** Directories that cannot be listed *)

Lemma generate_denied_as_empty pats max_depth levels :
  ∀ root_path current_depth fs,
    max_depth - current_depth = levels →
    generate_directory_structure pats root_path max_depth current_depth fs =
    generate_directory_structure pats root_path max_depth current_depth
      (denied_as_empty fs).
Proof.
  induction levels as [|levels IH]; intros root_path current_depth fs Hl.
  - by rewrite !generate_at_max_depth by lia.
  - rewrite !generate_directory_structure_unfold.
    rewrite !bool_decide_false by lia.
    destruct fs as [entries|e]; [|by destruct e].
    f_equal. simpl denied_as_empty. apply try_block_alike.
    induction entries as [|item entries IHentries]; simpl; constructor; [|done].
    destruct item as [n|n content]; simpl; [done|]. split; [done|].
    apply IH. lia.
Qed.

Lemma mapM_result_app_raise {A B} (f : A → result B) before x after e :
  Forall (λ y, ∃ b, f y = Ok b) before →
  f x = Raise e →
  mapM_result f (before ++ x :: after) = Raise e.
Proof.
  intros Hbefore Hx. induction Hbefore as [|y before [b Hy] _ IH]; simpl.
  - by rewrite Hx.
  - by rewrite Hy, IH.
Qed.

(** C6.  Below the maximum depth: a directory whose listing is denied
    renders as the empty text, and the rendering of a tree is the
    rendering of the tree in which every such directory is empty; a
    listing that fails in another way makes the call raise that failure;
    no call raises the permission failure; the failure of a subdirectory
    is the failure of its parent, and of [main]. *)
Theorem listing_failures pats root_path max_depth current_depth :
  current_depth < max_depth →
  generate_directory_structure pats root_path max_depth current_depth
    (Raises PermissionError) = Ok "" ∧
  (∀ fs,
     generate_directory_structure pats root_path max_depth current_depth fs =
     generate_directory_structure pats root_path max_depth current_depth
       (denied_as_empty fs)) ∧
  (∀ e, e ≠ PermissionError →
     generate_directory_structure pats root_path max_depth current_depth
       (Raises e) = Raise e) ∧
  (∀ fs,
     generate_directory_structure pats root_path max_depth current_depth fs
     ≠ Raise PermissionError) ∧
  (∀ entries before n content after e,
     List.filter (visible pats root_path) (sorted name entries)
     = before ++ Dir n content :: after →
     Forall (λ item, ∃ s, render_item pats root_path max_depth
                            (current_depth + 1) item = Ok s) before →
     generate_directory_structure pats (path_child root_path n) max_depth
       (current_depth + 1) content = Raise e →
     generate_directory_structure pats root_path max_depth current_depth
       (Listed entries) = Raise e) ∧
  (∀ fs e,
     generate_directory_structure main_ignore_patterns "." default_max_depth 0 fs
     = Raise e →
     main fs = Raise e).
Proof.
  intros Hd. repeat split.
  - by rewrite generate_raises.
  - intros fs. by eapply generate_denied_as_empty.
  - intros e He. rewrite generate_raises by done. by case_decide.
  - intros fs. apply generate_not_PermissionError.
  - intros entries before n content after e Hsplit Hbefore Hraise.
    rewrite generate_listed, Hsplit by done.
    rewrite (mapM_result_app_raise _ _ _ _ e); [done..|].
    simpl. by rewrite Hraise.
  - intros fs e Hraise. unfold main. by rewrite Hraise.
Qed.

Lemma listing_failures_witness :
  generate_directory_structure main_ignore_patterns "." default_max_depth 0
    (Listed [ File "a"; Dir "locked" (Raises PermissionError); File "z" ])
  = generate_directory_structure main_ignore_patterns "." default_max_depth 0
      (Listed [ File "a"; Dir "locked" (Listed []); File "z" ])
  ∧ main (Listed [ File "a"; Dir "gone" (Raises FileNotFoundError); File "z" ])
    = Raise FileNotFoundError.
Proof.
  assert (0 < default_max_depth) as Hd by (unfold default_max_depth; lia).
  destruct (listing_failures main_ignore_patterns "." default_max_depth 0 Hd)
    as (_ & Hdenied & _ & _ & Hsub & Hmain).
  split.
  - apply (Hdenied (Listed [ File "a"; Dir "locked" (Raises PermissionError);
                             File "z" ])).
  - apply Hmain.
    apply (Hsub _ [File "a"] "gone" (Raises FileNotFoundError) [File "z"]).
    + reflexivity.
    + repeat constructor. by eexists.
    + reflexivity.
Defined.

(** *** Determinism *)

Lemma relisted_entry_name item item' :
  relisted_entry item item' → name item = name item'.
Proof. by destruct 1. Qed.

Lemma generate_relisted pats max_depth levels :
  ∀ root_path current_depth fs fs',
    max_depth - current_depth = levels →
    relisted fs fs' →
    generate_directory_structure pats root_path max_depth current_depth fs =
    generate_directory_structure pats root_path max_depth current_depth fs'.
Proof.
  induction levels as [|levels IH]; intros root_path current_depth fs fs' Hl Hfs.
  - by rewrite !generate_at_max_depth by lia.
  - rewrite !generate_directory_structure_unfold.
    rewrite !bool_decide_false by lia. f_equal.
    destruct Hfs as [e|entries entries' entries'' Hnodup Hperm Hentries]; [done|].
    simpl. rewrite (sorted_permutation name entries entries') by done.
    apply (for_each_Forall2 relisted_entry).
    + intros item item' items Hitem. apply loop_body_alike.
      destruct Hitem as [n|n content content' Hcontent]; simpl; [done|].
      split; [done|]. apply IH; [lia|done].
    + apply (sorted_Forall2 name); [|done]. apply relisted_entry_name.
Qed.

Lemma filter_Permutation {A} (P : A → bool) l l' :
  l ≡ₚ l' → List.filter P l ≡ₚ List.filter P l'.
Proof.
  induction 1 as [|x l l' _ IH|x y l|l l' l'' _ IH _ IH']; simpl.
  - done.
  - destruct (P x); by rewrite IH.
  - destruct (P x), (P y); (done || apply Permutation_swap).
  - by etrans.
Qed.

Lemma filter_StronglySorted {A} (R : relation A) (P : A → bool) l :
  StronglySorted R l → StronglySorted R (List.filter P l).
Proof.
  induction 1 as [|x l _ IH Hx]; simpl; [constructor|].
  destruct (P x); [|done]. constructor; [done|].
  apply Forall_forall. intros y [Hy _]%list_elem_of_In%List.filter_In.
  rewrite Forall_forall in Hx. by apply Hx, list_elem_of_In.
Qed.

(** C7.  The rendering does not depend on the order in which the
    directories are listed: a tree and the same tree listed in another
    order render to the same text.  Below the maximum depth that text is
    the renderings of the visible entries taken in the sorted order of the
    listing, which holds the entries of the listing in ascending order of
    their names, with one newline between two renderings; a file renders
    as its tag. *)
Theorem rendering_is_deterministic pats root_path max_depth current_depth fs fs' :
  relisted fs fs' →
  generate_directory_structure pats root_path max_depth current_depth fs =
  generate_directory_structure pats root_path max_depth current_depth fs' ∧
  (∀ entries,
     current_depth < max_depth →
     generate_directory_structure pats root_path max_depth current_depth
       (Listed entries) =
     result_map (String.concat (String "010"%char ""))
       (mapM_result (render_item pats root_path max_depth (current_depth + 1))
          (List.filter (visible pats root_path) (sorted name entries)))) ∧
  (∀ entries,
     sorted name entries ≡ₚ entries ∧
     StronglySorted (λ item item', String.le (name item) (name item'))
       (sorted name entries) ∧
     List.filter (visible pats root_path) (sorted name entries)
     ≡ₚ List.filter (visible pats root_path) entries ∧
     StronglySorted (λ item item', String.le (name item) (name item'))
       (List.filter (visible pats root_path) (sorted name entries))) ∧
  (∀ n depth,
     render_item pats root_path max_depth depth (File n)
     = Ok ("<file name='" +:+ n +:+ "'/>")) ∧
  (∀ item,
     visible pats root_path item = true ↔
     ∀ pattern, pattern ∈ pats →
       str_in pattern (path_child root_path (name item)) = false).
Proof.
  intros Hfs. split; [|split; [|split; [|split]]].
  - by eapply generate_relisted.
  - intros entries Hd. by apply generate_listed.
  - intros entries.
    pose proof (sorted_StronglySorted name entries) as Hsorted.
    split; [apply sorted_perm|]. split; [exact Hsorted|].
    split; [apply filter_Permutation, sorted_perm|].
    exact (filter_StronglySorted _ _ _ Hsorted).
  - done.
  - intros item. unfold visible. by rewrite negb_true_iff, should_ignore_false.
Qed.

Lemma rendering_is_deterministic_witness :
  generate_directory_structure main_ignore_patterns "." default_max_depth 0 scenario =
  generate_directory_structure main_ignore_patterns "." default_max_depth 0
    (Listed [ Dir "docs" (Listed []);
              Dir "node_modules" (Listed [File "x.js"]);
              Dir "src" (Listed [File "a.ts"; File "b.ts"]) ]) ∧
  generate_directory_structure main_ignore_patterns "." default_max_depth 0 scenario
  = Ok ("<folder name='docs'/>" +:+ String "010"%char "" +:+
        "<folder name='src'>" +:+ String "010"%char "" +:+
        "<file name='a.ts'/>" +:+ String "010"%char "" +:+
        "<file name='b.ts'/></folder>").
Proof.
  assert (relisted scenario
            (Listed [ Dir "docs" (Listed []);
                      Dir "node_modules" (Listed [File "x.js"]);
                      Dir "src" (Listed [File "a.ts"; File "b.ts"]) ])) as Hfs;
    [|destruct (rendering_is_deterministic main_ignore_patterns "."
                  default_max_depth 0 _ _ Hfs) as (Hsame & Hlisted & _);
      split; [exact Hsame|];
      unfold scenario;
      rewrite Hlisted by (unfold default_max_depth; lia); reflexivity].
  apply (relisted_listed _
           [ Dir "docs" (Listed []);
             Dir "node_modules" (Listed [File "x.js"]);
             Dir "src" (Listed [File "b.ts"; File "a.ts"]) ]).
  - compute_done.
  - apply Permutation_sym.
    apply (Permutation_cons_app
             [ Dir "src" (Listed [File "b.ts"; File "a.ts"]);
               Dir "node_modules" (Listed [File "x.js"]) ] []).
    apply Permutation_swap.
  - constructor; [|constructor; [|constructor; [|constructor]]];
      apply relisted_dir.
    + apply (relisted_listed _ []); [constructor|reflexivity|constructor].
    + apply (relisted_listed _ [File "x.js"]);
        [compute_done|reflexivity|].
      constructor; constructor.
    + apply (relisted_listed _ [File "a.ts"; File "b.ts"]).
      * compute_done.
      * apply Permutation_swap.
      * constructor; [constructor|]. constructor; constructor.
Defined.

(** *** The tags *)

Lemma mapM_result_Forall2 {A B} (f : A → result B) l rendered :
  mapM_result f l = Ok rendered → Forall2 (λ x y, f x = Ok y) l rendered.
Proof.
  revert rendered. induction l as [|x l IH]; simpl; intros rendered.
  - intros [= <-]. constructor.
  - destruct (f x) as [y|e] eqn:Hx; [|done].
    destruct (mapM_result f l) as [ys|e]; [|done].
    intros [= <-]. constructor; [done|]. by apply IH.
Qed.

Lemma render_item_is_tag pats root_path max_depth depth item s :
  render_item pats root_path max_depth depth item = Ok s → is_tag s.
Proof.
  destruct item as [n|n content]; simpl.
  - intros [= <-]. by eexists.
  - destruct (generate_directory_structure _ _ _ _ _) as [[|c sub]|e];
      [| |done]; intros [= <-]; by eexists.
Qed.

Lemma join_empty items : Forall is_tag items → join nl items = "" ↔ items = [].
Proof.
  destruct 1 as [|x items [x' ->] _]; [done|]. split; [|done].
  by destruct items.
Qed.

Lemma filter_nil_iff {A} (P : A → bool) l :
  List.filter P l = [] ↔ Forall (λ x, P x = false) l.
Proof.
  induction l as [|x l IH]; simpl.
  - split; [constructor|done].
  - destruct (P x) eqn:Hx.
    + split; [done|]. intros [? _]%Forall_cons. congruence.
    + rewrite IH, Forall_cons. split; [by split|by intros [_ ?]].
Qed.

Lemma filter_sorted_nil {A} (key : A → string) (P : A → bool) l :
  List.filter P (sorted key l) = [] ↔ List.filter P l = [].
Proof. by rewrite !filter_nil_iff, sorted_perm. Qed.

(** C4, with the quotes the code writes.  Below the maximum depth, the
    rendering of a directory that can be listed is the renderings of its
    visible entries, in sorted order, joined by newlines; a file renders
    as [<file name='X'/>]; a directory renders as [<folder name='X'/>]
    when the rendering of its content is empty, and otherwise as
    [<folder name='X'>], a newline, that rendering and [</folder>]; the
    rendering of a content is empty exactly when it has no visible entry,
    and always at the maximum depth. *)
Theorem entries_render_as_tags pats root_path max_depth current_depth entries :
  current_depth < max_depth →
  generate_directory_structure pats root_path max_depth current_depth
    (Listed entries) =
  result_map (join nl)
    (mapM_result (render_item pats root_path max_depth (current_depth + 1))
       (List.filter (visible pats root_path) (sorted name entries))) ∧
  (∀ n,
     render_item pats root_path max_depth (current_depth + 1) (File n)
     = Ok ("<file name='" +:+ n +:+ "'/>")) ∧
  (∀ n content sub,
     generate_directory_structure pats (path_child root_path n) max_depth
       (current_depth + 1) content = Ok sub →
     render_item pats root_path max_depth (current_depth + 1) (Dir n content)
     = Ok (if decide (sub = "") then "<folder name='" +:+ n +:+ "'/>"
           else "<folder name='" +:+ n +:+ "'>" +:+ nl +:+ sub +:+ "</folder>")) ∧
  (∀ s,
     generate_directory_structure pats root_path max_depth current_depth
       (Listed entries) = Ok s →
     s = "" ↔ List.filter (visible pats root_path) entries = []) ∧
  (∀ n content,
     max_depth ≤ current_depth + 1 →
     render_item pats root_path max_depth (current_depth + 1) (Dir n content)
     = Ok ("<folder name='" +:+ n +:+ "'/>")).
Proof.
  intros Hd. split; [by apply generate_listed|]. split; [done|].
  split; [|split].
  - intros n content sub Hsub. simpl. rewrite Hsub. by destruct sub.
  - intros s. rewrite generate_listed by done.
    destruct (mapM_result _ _) as [rendered|e] eqn:Hr; [|done].
    intros [= <-]. apply mapM_result_Forall2 in Hr.
    rewrite join_empty.
    + rewrite <-(filter_sorted_nil name). split.
      * intros ->. by apply Forall2_nil_inv_r in Hr.
      * intros Hnil. rewrite Hnil in Hr. by apply Forall2_nil_inv_l in Hr.
    + clear -Hr. induction Hr as [|???? Hx _ IH]; constructor; [|done].
      by eapply render_item_is_tag.
  - intros n content Hmax. simpl. by rewrite generate_at_max_depth by lia.
Qed.

Lemma entries_render_as_tags_witness :
  generate_directory_structure main_ignore_patterns "." default_max_depth 0 scenario
  = Ok ("<folder name='docs'/>" +:+ nl +:+
        "<folder name='src'>" +:+ nl +:+
        "<file name='a.ts'/>" +:+ nl +:+
        "<file name='b.ts'/></folder>").
Proof.
  assert (0 < default_max_depth) as Hd by (unfold default_max_depth; lia).
  unfold scenario.
  rewrite (proj1 (entries_render_as_tags main_ignore_patterns "."
                    default_max_depth 0 _ Hd)).
  reflexivity.
Defined.

(** C4 as it is worded, with double quotes, fails: the rendering of a
    file, an empty directory and a directory with a file in it holds none
    of the three double-quoted tags, nor any double quote. *)
Lemma tags_are_not_double_quoted :
  ∃ s,
    generate_directory_structure main_ignore_patterns "." default_max_depth 0
      (Listed [ File "a"; Dir "d" (Listed []); Dir "e" (Listed [File "b"]) ])
    = Ok s ∧
    str_in (dquoted_file_tag "a") s = false ∧
    str_in (dquoted_empty_folder_tag "d") s = false ∧
    str_in (dquoted_folder_open_tag "e") s = false ∧
    str_in dquote s = false.
Proof. eexists. split; [reflexivity|]. by vm_compute. Qed.

(** *** The pattern [*.log] *)

Lemma join_contains sep items x :
  x ∈ items → str_in x (join sep items) = true.
Proof.
  intros Hx. apply str_in_spec.
  induction items as [|y items IH]; [by apply elem_of_nil in Hx|].
  apply elem_of_cons in Hx as [->|Hx].
  - exists "". destruct items as [|z items]; simpl.
    + exists "". by rewrite app_empty_r.
    + by eexists.
  - destruct (IH Hx) as (a & b & Hab). destruct items as [|z items].
    { by apply elem_of_nil in Hx. }
    exists (y +:+ sep +:+ a), b.
    change (join sep (y :: z :: items)) with (y +:+ sep +:+ join sep (z :: items)).
    by rewrite Hab, !app_assoc_str.
Qed.

Lemma path_child_cwd n : path_child "." n = n.
Proof. reflexivity. Qed.

Lemma visible_file_is_rendered pats root_path max_depth current_depth entries n s :
  current_depth < max_depth →
  File n ∈ entries →
  should_ignore (path_child root_path n) pats = false →
  generate_directory_structure pats root_path max_depth current_depth
    (Listed entries) = Ok s →
  str_in (file_tag n) s = true.
Proof.
  intros Hd Hin Hvis. rewrite generate_listed by done.
  destruct (mapM_result _ _) as [rendered|e] eqn:Hr; [|done].
  intros [= <-]. apply join_contains.
  apply mapM_result_Forall2 in Hr.
  assert (File n ∈ List.filter (visible pats root_path) (sorted name entries))
    as Hin'.
  { apply list_elem_of_In, List.filter_In. split.
    - apply list_elem_of_In. by rewrite sorted_perm.
    - unfold visible. simpl. by rewrite Hvis. }
  clear -Hr Hin'. induction Hr as [|x y l r Hxy _ IH].
  - by apply elem_of_nil in Hin'.
  - apply elem_of_cons in Hin' as [<-|Hin'].
    + simpl in Hxy. injection Hxy as <-. left.
    + right. by apply IH.
Qed.

Lemma str_in_trans a b c :
  str_in a b = true → str_in b c = true → str_in a c = true.
Proof.
  rewrite !str_in_spec. intros (x & y & ->) (x' & y' & ->).
  exists (x' +:+ x), (y +:+ y'). by rewrite !app_assoc_str.
Qed.

Lemma mapM_result_elem {A B} (f : A → result B) l rendered x :
  mapM_result f l = Ok rendered → x ∈ l → ∃ y, y ∈ rendered ∧ f x = Ok y.
Proof.
  intros Hr%mapM_result_Forall2 Hx.
  induction Hr as [|x' y l r Hxy _ IH]; [by apply elem_of_nil in Hx|].
  apply elem_of_cons in Hx as [->|Hx].
  - exists y. split; [left|done].
  - destruct (IH Hx) as (y' & ? & ?). exists y'. split; [by right|done].
Qed.

Lemma shown_file_is_rendered pats max_depth root_path current_depth fs n :
  shown_file pats max_depth root_path current_depth fs n →
  ∀ s,
    generate_directory_structure pats root_path max_depth current_depth fs = Ok s →
    str_in (file_tag n) s = true.
Proof.
  induction 1 as [root_path current_depth entries n Hd Hin Hvis
                 |root_path current_depth entries d content n Hd Hin Hvis _ IH];
    intros s.
  { by apply visible_file_is_rendered. }
  rewrite generate_listed by done.
  destruct (mapM_result _ _) as [rendered|e] eqn:Hr; [|done].
  intros [= <-].
  destruct (mapM_result_elem _ _ _ (Dir d content) Hr) as (y & Hy & Hitem).
  { apply list_elem_of_In, List.filter_In. split.
    - apply list_elem_of_In. by rewrite sorted_perm.
    - unfold visible. simpl. by rewrite Hvis. }
  apply (str_in_trans _ y); [|by apply join_contains].
  simpl in Hitem.
  destruct (generate_directory_structure _ _ _ _ content) as [sub|e] eqn:Hsub;
    [|done].
  specialize (IH sub eq_refl). destruct sub as [|c sub].
  { by vm_compute in IH. }
  injection Hitem as <-. unfold folder_tag.
  do 4 apply str_in_app_l. by apply str_in_app_r.
Qed.




(** *** The summary line *)

Lemma split_go_String sep piece c s :
  split_go sep 0 piece (String c s) =
  if String.prefix sep (String c s)
  then piece :: split_go sep (String.length sep - 1) "" s
  else split_go sep 0 (piece +:+ String c "") s.
Proof. reflexivity. Qed.

Lemma count_tokens_String token c s :
  count_tokens token (String c s) =
  (if String.prefix token (String c s) then 1 else 0) + count_tokens token s.
Proof. reflexivity. Qed.

Lemma split_file_tokens n :
  ∀ s piece,
    String.length s ≤ n →
    length (split_go "<file" 0 piece s) = S (count_tokens "<file" s).
Proof.
  induction n as [|n IH]; intros [|c s] piece Hlen; try done.
  { simpl in Hlen. lia. }
  rewrite split_go_String, count_tokens_String.
  destruct (String.prefix "<file" (String c s)) eqn:Hp.
  - apply prefix_spec in Hp as [rest Hrest].
    change ("<file" +:+ rest)
      with (String "<" (String "f" (String "i" (String "l" (String "e" rest)))))
      in Hrest.
    injection Hrest as -> ->. simpl in Hlen.
    change (length (piece :: split_go "<file" 0 "" rest) =
            S (1 + count_tokens "<file" rest)).
    simpl. rewrite IH by lia. done.
  - simpl in Hlen. rewrite IH by lia. done.
Qed.

(** C3.  The number in the summary line is one more than the number of
    [<file] tokens of the rendered text; for a directory that holds one
    file the line says 2, for an empty directory it says 1. *)
Theorem summary_counts_one_too_many :
  (∀ structure, summary_count structure = S (count_tokens "<file" structure)) ∧
  (∃ effects,
     main (Listed [File "a.txt"]) = Ok effects ∧
     count_tokens "<file" "<file name='a.txt'/>" = 1 ∧
     printed effects =
       [ "✅ Directory structure generated: .cursor/rules/file-structure.mdc";
         "📁 Found 2 files and folders" ]) ∧
  (∃ effects,
     main (Listed []) = Ok effects ∧
     printed effects =
       [ "✅ Directory structure generated: .cursor/rules/file-structure.mdc";
         "📁 Found 1 files and folders" ]).
Proof.
  split; [|split].
  - intros structure. apply (split_file_tokens (String.length structure)). done.
  - eexists. split; [reflexivity|]. by vm_compute.
  - eexists. split; [reflexivity|]. by vm_compute.
Qed.

(** ** The watcher *)

Lemma check_file_path env root st file :
  check_file env root st file = check_path env st (os_path_join root file).
Proof. by destruct st. Qed.

Lemma foldl_ext {A B} (f g : A → B → A) a l :
  (∀ a x, f a x = g a x) → foldl f a l = foldl g a l.
Proof.
  intros Hfg. revert a. induction l as [|x l IH]; intros a; simpl; [done|].
  by rewrite Hfg, IH.
Qed.

Lemma foldl_map {A B C} (f : A → B → A) (g : C → B) a l :
  foldl f a (List.map g l) = foldl (λ a x, f a (g x)) a l.
Proof. revert a. induction l as [|x l IH]; intros a; simpl; [done|]. apply IH. Qed.

Lemma foldl_flat_map {A B C} (f : A → B → A) (g : C → list B) a l :
  foldl f a (List.flat_map g l) = foldl (λ a x, foldl f a (g x)) a l.
Proof.
  revert a. induction l as [|x l IH]; intros a; simpl; [done|].
  by rewrite foldl_app, IH.
Qed.

(** One poll reads the files of [walked_files], in that order. *)
Lemma scan_walked_files env last_modified :
  scan env last_modified =
  foldl (check_path env) (last_modified, false) (walked_files env).
Proof.
  unfold scan, walked_files. rewrite foldl_flat_map. apply foldl_ext.
  intros st watch_dir. unfold check_watch_dir.
  destruct (lookup_entry _ _) as [top|]; [|done].
  rewrite foldl_flat_map. apply foldl_ext.
  intros st' [[root dirs] files]. simpl. rewrite foldl_map.
  apply foldl_ext. intros. apply check_file_path.
Qed.

Lemma check_path_cases env st p :
  (new_or_changed env st.1 p ∧
   ∃ t, getmtime env p = Some t ∧ check_path env st p = (<[p := t]> st.1, true)) ∨
  (¬ new_or_changed env st.1 p ∧ check_path env st p = st).
Proof.
  unfold check_path, new_or_changed.
  destruct (getmtime env p) as [t|]; [|right; split; [by intros (? & ? & ?)|done]].
  destruct (st.1 !! p) as [recorded|] eqn:Hrec.
  - destruct (Z.eqb_spec recorded t) as [->|Hne]; simpl.
    + right. split; [|done]. intros (t' & [= <-] & Hne). done.
    + left. split; [|eauto]. exists t. split; [done|]. congruence.
  - left. split; [|eauto]. exists t. split; [done|]. congruence.
Qed.

Lemma poll_changed_stays env ps m :
  (foldl (check_path env) (m, true) ps).2 = true.
Proof.
  revert m. induction ps as [|p ps IH]; intros m; simpl; [done|].
  destruct (check_path_cases env (m, true) p) as [(_ & t & _ & ->)|[_ ->]];
    apply IH.
Qed.

(** The flag of a poll: set exactly when some file read is new or
    changed. *)
Lemma poll_changed env ps m :
  (foldl (check_path env) (m, false) ps).2 = true ↔
  ∃ p, p ∈ ps ∧ new_or_changed env m p.
Proof.
  revert m. induction ps as [|p ps IH]; intros m; simpl.
  { split; [done|]. intros (? & []%elem_of_nil & _). }
  destruct (check_path_cases env (m, false) p) as [(Hp & t & _ & ->)|[Hp ->]];
    simpl in *.
  - rewrite poll_changed_stays. split; [|done]. intros _. exists p. split; [left|done].
  - rewrite IH. split.
    + intros (q & ? & ?). exists q. split; [by right|done].
    + intros (q & [->|?]%elem_of_cons & ?); [done|eauto].
Qed.

(** The table after a poll: the timestamp read for the files read, the
    former record for the others. *)
Lemma poll_table env ps m b q :
  (foldl (check_path env) (m, b) ps).1 !! q =
  match getmtime env q with
  | Some t => if bool_decide (q ∈ ps) then Some t else m !! q
  | None => m !! q
  end.
Proof.
  revert m b. induction ps as [|p ps IH]; intros m b; cbn [foldl].
  { destruct (getmtime env q); [|done].
    by rewrite bool_decide_false by apply not_elem_of_nil. }
  destruct (check_path_cases env (m, b) p) as [(Hp & t & Ht & ->)|[Hp ->]];
    rewrite IH; cbn [fst snd] in *.
  - destruct (decide (q = p)) as [->|Hne].
    + rewrite Ht, lookup_insert_eq, (bool_decide_true (p ∈ p :: ps)) by left.
      by case_bool_decide.
    + rewrite lookup_insert_ne by done.
      by rewrite (bool_decide_ext (q ∈ p :: ps) (q ∈ ps))
        by (rewrite elem_of_cons; split; [by intros [?|?]|by right]).
  - destruct (getmtime env q) as [t|] eqn:Hq; [|done].
    destruct (decide (q = p)) as [->|Hne].
    + rewrite (bool_decide_true (p ∈ p :: ps)) by left.
      case_bool_decide; [done|].
      destruct (m !! p) as [t'|] eqn:Hm.
      * destruct (decide (t' = t)) as [->|]; [done|].
        destruct Hp. exists t. split; [done|]. congruence.
      * destruct Hp. exists t. split; [done|]. congruence.
    + by rewrite (bool_decide_ext (q ∈ p :: ps) (q ∈ ps))
        by (rewrite elem_of_cons; split; [by intros [?|?]|by right]).
Qed.

Lemma iteration_table env last_modified :
  (iteration env last_modified).1 = (scan env last_modified).1.
Proof. unfold iteration. by destruct (scan _ _). Qed.

Lemma iteration_invocations env last_modified :
  invocations (iteration env last_modified).2 =
  if (scan env last_modified).2 then 1 else 0.
Proof.
  unfold iteration. destruct (scan _ _) as [table [|]]; [|done].
  unfold regenerate. simpl. destruct (subprocess_run env) as [code err|msg]; [|done].
  by destruct (Z.eqb code 0).
Qed.

(** C2.  One iteration starts the generator once when one of the files
    it reads is new to the table or has another timestamp than the
    recorded one, and not at all otherwise; in particular not in the poll
    that follows, when every file that poll reads was read, with the same
    timestamp, by this one. *)
Theorem regeneration_iff_change env last_modified :
  ((∃ p, p ∈ walked_files env ∧ new_or_changed env last_modified p) →
   invocations (iteration env last_modified).2 = 1) ∧
  (¬ (∃ p, p ∈ walked_files env ∧ new_or_changed env last_modified p) →
   invocations (iteration env last_modified).2 = 0) ∧
  (∀ env',
     (∀ p t, p ∈ walked_files env' → getmtime env' p = Some t →
             p ∈ walked_files env ∧ getmtime env p = Some t) →
     invocations (iteration env' (iteration env last_modified).1).2 = 0).
Proof.
  split; [|split].
  - intros Hch. rewrite iteration_invocations, scan_walked_files.
    apply poll_changed in Hch. by rewrite Hch.
  - intros Hch. rewrite iteration_invocations, scan_walked_files.
    rewrite <-poll_changed in Hch. apply not_true_is_false in Hch.
    by rewrite Hch.
  - intros env' Hsame. rewrite iteration_invocations, scan_walked_files.
    destruct ((foldl (check_path env') ((iteration env last_modified).1, false)
                 (walked_files env')).2) eqn:Hch; [|done].
    apply poll_changed in Hch as (p & Hp & t & Ht & Hrec).
    destruct (Hsame p t Hp Ht) as [Hp' Ht']. destruct Hrec.
    rewrite iteration_table, scan_walked_files, poll_table, Ht'.
    by rewrite bool_decide_true.
Qed.

Lemma regeneration_iff_change_witness :
  invocations (iteration poll_example ∅).2 = 1 ∧
  invocations (iteration poll_example (iteration poll_example ∅).1).2 = 0.
Proof.
  destruct (regeneration_iff_change poll_example ∅) as (Hnew & _ & Hsame).
  split.
  - apply Hnew. exists "src/a.ts". split.
    + apply list_elem_of_In. vm_compute. left. reflexivity.
    + exists 5%Z. split; [reflexivity|]. rewrite lookup_empty. discriminate.
  - apply Hsame. intros p t Hp Ht. split; assumption.
Defined.

(** *** The table *)

Lemma watch_loop_snoc envs env last_modified :
  watch_loop (envs ++ [env]) last_modified =
  ((iteration env (watch_loop envs last_modified).1).1,
   (watch_loop envs last_modified).2
   ++ (iteration env (watch_loop envs last_modified).1).2).
Proof.
  unfold watch_loop. rewrite foldl_snoc.
  destruct (foldl _ _ envs) as [table events]. simpl.
  by destruct (iteration env table).
Qed.

Lemma watch_and_regenerate_table envs :
  (watch_and_regenerate envs).1 = (watch_loop envs ∅).1.
Proof. unfold watch_and_regenerate. by destruct (watch_loop _ _). Qed.

Lemma iteration_keeps_paths env last_modified :
  dom last_modified ⊆ dom (iteration env last_modified).1.
Proof.
  intros p [t Ht]%elem_of_dom. apply elem_of_dom.
  rewrite iteration_table, scan_walked_files, poll_table, Ht.
  destruct (getmtime env p); [|done]. by case_bool_decide.
Qed.

(** C8.  The table starts empty; an iteration removes no path from it,
    and what it holds for a path afterwards is what it held before or the
    timestamp just read; so the paths of the table only grow while the
    watcher runs. *)
Theorem table_grows env last_modified envs :
  (watch_and_regenerate []).1 = ∅ ∧
  (watch_and_regenerate envs).1 = (watch_loop envs ∅).1 ∧
  dom last_modified ⊆ dom (iteration env last_modified).1 ∧
  (∀ p t, (iteration env last_modified).1 !! p = Some t →
          last_modified !! p = Some t ∨ getmtime env p = Some t) ∧
  dom (watch_and_regenerate envs).1 ⊆ dom (watch_and_regenerate (envs ++ [env])).1.
Proof.
  split; [done|]. split; [apply watch_and_regenerate_table|].
  split; [apply iteration_keeps_paths|]. split.
  - intros p t. rewrite iteration_table, scan_walked_files, poll_table.
    destruct (getmtime env p) as [t'|]; [|by left].
    case_bool_decide; [by right|by left].
  - rewrite !watch_and_regenerate_table, watch_loop_snoc. simpl.
    apply iteration_keeps_paths.
Qed.

(** *** The directories the watcher skips *)

Lemma keep_dirs_spec dirs d :
  d ∈ keep_dirs dirs ↔ d ∈ dirs ∧ d ∉ skipped_dirs.
Proof.
  unfold keep_dirs. rewrite (list_elem_of_In (List.filter _ _)), List.filter_In.
  by rewrite negb_true_iff, bool_decide_eq_false, <-list_elem_of_In.
Qed.

Lemma walked_Listed top entries p :
  In p (List.flat_map triple_paths (os_walk keep_dirs top (Listed entries))) ↔
  (∃ f, In (File f) entries ∧ p = os_path_join top f) ∨
  (∃ d content,
     In (Dir d content) entries ∧ (d ∉ skipped_dirs) ∧
     In p (List.flat_map triple_paths
             (os_walk keep_dirs (os_path_join top d) content))).
Proof.
  simpl. rewrite List.in_app_iff, List.in_map_iff.
  rewrite List.in_flat_map. split.
  - intros [(f & <- & Hf)|(triple & Htriple & Hp)].
    + left. exists f. split; [|done].
      apply List.in_map_iff in Hf as ([n|n c] & <- & He%List.filter_In);
        simpl in He; by destruct He.
    + right. apply List.in_flat_map in Htriple as ([n|d content] & He & Htriple);
        [done|].
      case_bool_decide as Hkeep; [|done].
      apply keep_dirs_spec in Hkeep as [_ Hkeep].
      exists d, content. split; [done|]. split; [done|].
      apply List.in_flat_map. eauto.
  - intros [(f & Hf & ->)|(d & content & Hd & Hskip & Hp)].
    + left. exists f. split; [done|].
      apply List.in_map_iff. exists (File f). split; [done|].
      by apply List.filter_In.
    + right. apply List.in_flat_map in Hp as (triple & Htriple & Hp).
      exists triple. split; [|done].
      apply List.in_flat_map. exists (Dir d content). split; [done|].
      rewrite bool_decide_true; [done|].
      apply keep_dirs_spec. split; [|done].
      apply list_elem_of_In, List.in_map_iff. exists (Dir d content).
      split; [done|]. by apply List.filter_In.
Qed.

Lemma walks_to_walked top fs p :
  walks_to top fs p →
  In p (List.flat_map triple_paths (os_walk keep_dirs top fs)).
Proof.
  induction 1 as [top entries f Hf|top entries d content p Hd Hskip _ IH];
    apply walked_Listed.
  - left. exists f. by rewrite <-list_elem_of_In.
  - right. exists d, content. by rewrite <-list_elem_of_In.
Qed.

Lemma walked_walks_to fs :
  ∀ top p,
    In p (List.flat_map triple_paths (os_walk keep_dirs top fs)) →
    walks_to top fs p.
Proof.
  revert fs.
  apply (listing_tree_ind
           (λ item, ∀ top p,
              match item with
              | File _ => True
              | Dir _ content =>
                  In p (List.flat_map triple_paths (os_walk keep_dirs top content)) →
                  walks_to top content p
              end)
           (λ fs, ∀ top p,
              In p (List.flat_map triple_paths (os_walk keep_dirs top fs)) →
              walks_to top fs p)).
  - done.
  - intros n content IH top p. apply IH.
  - intros entries IH top p
      [(f & Hf & ->)|(d & content & Hd & Hskip & Hp)]%walked_Listed.
    + apply walks_to_file. by apply list_elem_of_In.
    + apply (walks_to_subdir _ _ d content); [by apply list_elem_of_In|done|].
      rewrite Forall_forall in IH.
      apply (IH (Dir d content)); [by apply list_elem_of_In|done].
  - intros e top p [].
Qed.

Lemma lookup_entry_In n entries item :
  lookup_entry n entries = Some item → In item entries ∧ name item = n.
Proof.
  intros [? ?%String.eqb_eq]%List.find_some. done.
Qed.

(** C9.  The watcher keeps a subdirectory unless its name is one of the
    four names; the files a poll reads are the files below the watch
    directories that are reached through kept directories; a new or
    changed file among them starts the generator.  [mybuild], [coverage],
    [venv] and [__pycache__] are kept, though the generator ignores an
    entry of such a name in whatever directory. *)
Theorem watcher_skips_exact_names env last_modified :
  (∀ dirs d,
     d ∈ keep_dirs dirs ↔
     d ∈ dirs ∧ d ≠ "node_modules" ∧ d ≠ ".git" ∧ d ≠ "dist" ∧ d ≠ "build") ∧
  (∀ p,
     p ∈ walked_files env ↔
     ∃ watch_dir n content,
       watch_dir ∈ watch_dirs ∧
       lookup_entry watch_dir (cwd env) = Some (Dir n content) ∧
       walks_to n content p) ∧
  (∀ watch_dir n content p,
     watch_dir ∈ watch_dirs →
     lookup_entry watch_dir (cwd env) = Some (Dir n content) →
     walks_to n content p →
     new_or_changed env last_modified p →
     invocations (iteration env last_modified).2 = 1) ∧
  Forall
    (λ d, (d ∉ skipped_dirs) ∧
          ∀ root_path,
            should_ignore (path_child root_path d) main_ignore_patterns = true)
    ["mybuild"; "coverage"; "venv"; "__pycache__"].
Proof.
  assert (∀ p,
     p ∈ walked_files env ↔
     ∃ watch_dir n content,
       watch_dir ∈ watch_dirs ∧
       lookup_entry watch_dir (cwd env) = Some (Dir n content) ∧
       walks_to n content p) as Hwalked.
  { intros p. unfold walked_files. rewrite list_elem_of_In, List.in_flat_map.
    split.
    - intros (watch_dir & Hw & Hp).
      destruct (lookup_entry _ _) as [[n|n content]|] eqn:Hl; [done| |done].
      exists watch_dir, n, content. split; [by apply list_elem_of_In|].
      split; [done|]. by apply walked_walks_to.
    - intros (watch_dir & n & content & Hw & Hl & Hp).
      exists watch_dir. split; [by apply list_elem_of_In|].
      rewrite Hl. by apply walks_to_walked. }
  split; [|split; [done|split]].
  - intros dirs d. rewrite keep_dirs_spec. unfold skipped_dirs.
    rewrite !not_elem_of_cons. split.
    + intros (? & ? & ? & ? & ? & _). done.
    + intros (? & ? & ? & ? & ?). repeat split; try done. apply not_elem_of_nil.
  - intros watch_dir n content p Hw Hl Hp Hch.
    apply regeneration_iff_change. exists p. split; [|done].
    apply Hwalked. eauto 6.
  - repeat constructor; try (by compute_done);
      intros root_path; by apply should_ignore_name.
Qed.

Lemma watcher_skips_exact_names_witness :
  invocations (iteration poll_example ∅).2 = 1.
Proof.
  apply (proj1 (proj2 (proj2 (watcher_skips_exact_names poll_example ∅)))
           "src" "src"
           (Listed [ File "a.ts";
                     Dir "build" (Listed [File "x"]);
                     Dir "mybuild" (Listed [File "y"]) ])
           "src/mybuild/y").
  - apply list_elem_of_In. simpl. left. reflexivity.
  - reflexivity.
  - apply (walks_to_subdir "src" _ "mybuild" (Listed [File "y"])).
    + apply list_elem_of_In. simpl. right. right. left. reflexivity.
    + compute_done.
    + apply (walks_to_file "src/mybuild" [File "y"] "y").
      apply list_elem_of_In. simpl. left. reflexivity.
  - exists 7%Z. split; [reflexivity|]. rewrite lookup_empty. discriminate.
Defined.

(** * Further properties *)

(** ** [should_ignore] *)

Lemma str_in_empty_pattern s : str_in "" s = true.
Proof. apply str_in_spec. by exists "", s. Qed.

(** X1.  The answer of [should_ignore] depends on the set of patterns
    only: a longer list ignores whatever a list it includes ignores, and
    the order of the patterns does not matter. *)
Theorem should_ignore_patterns_as_set path_str pats pats' :
  (∀ pattern, pattern ∈ pats → pattern ∈ pats') →
  (should_ignore path_str pats = true → should_ignore path_str pats' = true) ∧
  ((∀ pattern, pattern ∈ pats' → pattern ∈ pats) →
   should_ignore path_str pats = should_ignore path_str pats').
Proof.
  intros Hsub.
  assert (∀ ps ps' : list string,
            (∀ pattern, pattern ∈ ps → pattern ∈ ps') →
            should_ignore path_str ps = true →
            should_ignore path_str ps' = true) as Hmono.
  { intros ps ps' H. rewrite !should_ignore_spec.
    intros (pattern & Hin & Hp). exists pattern. auto. }
  split; [by apply Hmono|]. intros Hsup.
  destruct (should_ignore path_str pats) eqn:H1.
  - symmetry. by apply (Hmono pats pats').
  - destruct (should_ignore path_str pats') eqn:H2; [|done].
    apply (Hmono pats' pats) in H2; [congruence|done].
Qed.

Lemma should_ignore_patterns_as_set_witness :
  should_ignore "src/mybuild" ["build"; "dist"] =
  should_ignore "src/mybuild" ["dist"; "build"; "dist"].
Proof.
  apply (should_ignore_patterns_as_set "src/mybuild"
           ["build"; "dist"] ["dist"; "build"; "dist"]).
  - intros pattern Hin. apply list_elem_of_In in Hin. apply list_elem_of_In.
    simpl in *. tauto.
  - intros pattern Hin. apply list_elem_of_In in Hin. apply list_elem_of_In.
    simpl in *. tauto.
Defined.

Lemma generate_nothing_visible pats root_path max_depth current_depth entries :
  (∀ item, item ∈ entries → visible pats root_path item = false) →
  generate_directory_structure pats root_path max_depth current_depth
    (Listed entries) = Ok "".
Proof.
  intros Hnone.
  destruct (decide (max_depth ≤ current_depth)) as [Hd|Hd].
  { by apply generate_at_max_depth. }
  rewrite generate_listed by lia.
  assert (List.filter (visible pats root_path) (sorted name entries) = [])
    as ->; [|done].
  apply filter_sorted_nil, filter_nil_iff, Forall_forall. auto.
Qed.

(** X2.  An empty pattern is found in every path: with it in the list
    every path is ignored, and the rendering of any directory that can be
    listed is empty. *)
Theorem empty_pattern_ignores_everything pats :
  "" ∈ pats →
  (∀ path_str, should_ignore path_str pats = true) ∧
  (∀ root_path max_depth current_depth entries,
     generate_directory_structure pats root_path max_depth current_depth
       (Listed entries) = Ok "").
Proof.
  intros Hin.
  assert (∀ path_str, should_ignore path_str pats = true) as Hall.
  { intros path_str. apply should_ignore_spec. exists "".
    split; [done|apply str_in_empty_pattern]. }
  split; [done|]. intros. apply generate_nothing_visible.
  intros item _. unfold visible. by rewrite Hall.
Qed.

Lemma empty_pattern_ignores_everything_witness :
  generate_directory_structure ["*.log"; ""] "." default_max_depth 0 scenario
  = Ok "".
Proof.
  apply (empty_pattern_ignores_everything ["*.log"; ""]).
  apply list_elem_of_In. simpl. right. left. reflexivity.
Defined.

Lemma path_child_prefix root_path n :
  path_str root_path ≠ "." →
  ∃ b, path_child root_path n = path_str root_path +:+ b.
Proof.
  unfold path_child, path_str. rewrite join_snoc.
  destruct (path_parts root_path) as [|part parts].
  - destruct (path_anchor root_path) as [|c anchor]; [done|]. intros _.
    exists n. change (join "/" []) with "". by rewrite app_empty_r.
  - intros _. exists ("/" +:+ n).
    destruct (path_anchor root_path); by rewrite !app_assoc_str.
Qed.

(** X3.  A pattern found in the path of a directory is found in the path
    of everything in it: when the path the generator is started on, as
    [Path] writes it and other than the current directory, holds a
    pattern, each of its entries is ignored and the rendering is empty. *)
Theorem ignored_root_renders_nothing pats root_path :
  path_str root_path ≠ "." →
  should_ignore (path_str root_path) pats = true →
  (∀ n, should_ignore (path_child root_path n) pats = true) ∧
  (∀ max_depth current_depth entries,
     generate_directory_structure pats root_path max_depth current_depth
       (Listed entries) = Ok "").
Proof.
  intros Hroot Hi.
  assert (∀ n, should_ignore (path_child root_path n) pats = true) as Hall.
  { intros n. apply should_ignore_spec in Hi as (pattern & Hin & Hp).
    apply should_ignore_spec. exists pattern. split; [done|].
    destruct (path_child_prefix root_path n Hroot) as [b ->].
    by apply str_in_app_r. }
  split; [done|]. intros. apply generate_nothing_visible.
  intros item _. unfold visible. by rewrite Hall.
Qed.

Lemma ignored_root_renders_nothing_witness :
  generate_directory_structure main_ignore_patterns "rebuild" default_max_depth 0
    (Listed [File "a.ts"; Dir "lib" (Listed [File "b.ts"])])
  = Ok "".
Proof.
  apply (ignored_root_renders_nothing main_ignore_patterns "rebuild").
  - discriminate.
  - reflexivity.
Defined.

(** ** Success *)

Lemma mapM_result_ok {A B} (f : A → result B) l :
  Forall (λ x, ∃ y, f x = Ok y) l → ∃ ys, mapM_result f l = Ok ys.
Proof.
  induction 1 as [|x l [y Hy] _ [ys IH]]; simpl; [by eexists|].
  rewrite Hy, IH. by eexists.
Qed.

Lemma generate_readable pats max_depth levels :
  ∀ root_path current_depth fs,
    max_depth - current_depth = levels →
    readable fs →
    ∃ s, generate_directory_structure pats root_path max_depth current_depth fs
         = Ok s.
Proof.
  induction levels as [|levels IH]; intros root_path current_depth fs Hl Hfs.
  { rewrite generate_at_max_depth by lia. by eexists. }
  destruct Hfs as [|entries Hentries].
  { rewrite generate_raises by lia. by eexists. }
  rewrite generate_listed by lia.
  destruct (mapM_result_ok
              (render_item pats root_path max_depth (current_depth + 1))
              (List.filter (visible pats root_path) (sorted name entries)))
    as [rendered ->]; [|by eexists].
  apply Forall_forall. intros item [Hin _]%list_elem_of_In%List.filter_In.
  apply list_elem_of_In in Hin. rewrite sorted_perm in Hin.
  rewrite Forall_forall in Hentries. specialize (Hentries item Hin).
  destruct Hentries as [n|n content Hcontent]; simpl; [by eexists|].
  destruct (IH (path_child root_path n) (current_depth + 1) content)
    as [sub ->]; [lia|done|].
  destruct sub; by eexists.
Qed.



(** ** A maximum depth that is large enough *)

Lemma truncate_within_depth levels :
  ∀ fs, within_depth levels fs → truncate levels fs = fs.
Proof.
  induction levels as [|levels IH]; intros fs; simpl; [by intros ->|].
  destruct fs as [entries|e]; [|done]. intros Hentries. f_equal.
  induction Hentries as [|item entries Hitem _ IHentries]; simpl; [done|].
  rewrite IHentries. f_equal. destruct item as [n|n content]; [done|].
  by rewrite IH.
Qed.

(** X5.  For a tree that has nothing below the maximum depth, the
    maximum does not show: any larger maximum gives the same rendering. *)
Theorem larger_max_depth_same_rendering pats root_path max_depth current_depth
    extra fs :
  within_depth (max_depth - current_depth) fs →
  generate_directory_structure pats root_path (max_depth + extra) current_depth fs
  = generate_directory_structure pats root_path max_depth current_depth fs.
Proof.
  intros Hfs.
  rewrite (generate_truncate pats max_depth extra (max_depth - current_depth)
             root_path current_depth fs eq_refl).
  by rewrite truncate_within_depth.
Qed.

Lemma larger_max_depth_same_rendering_witness :
  generate_directory_structure [] "." (3 + 7) 0 deep_example
  = generate_directory_structure [] "." 3 0 deep_example.
Proof.
  apply (larger_max_depth_same_rendering [] "." 3 0 7 deep_example).
  simpl. repeat constructor.
Defined.

(** ** The table of the watcher *)

Lemma table_lookup env last_modified q :
  (iteration env last_modified).1 !! q =
  match getmtime env q with
  | Some t => if bool_decide (q ∈ walked_files env) then Some t
              else last_modified !! q
  | None => last_modified !! q
  end.
Proof. by rewrite iteration_table, scan_walked_files, poll_table. Qed.

Lemma poll_unchanged env ps m :
  (foldl (check_path env) (m, false) ps).2 = false →
  (foldl (check_path env) (m, false) ps).1 = m.
Proof.
  revert m. induction ps as [|p ps IH]; intros m; simpl; [done|].
  destruct (check_path_cases env (m, false) p) as [(_ & t & _ & ->)|[_ ->]].
  - by rewrite poll_changed_stays.
  - apply IH.
Qed.

Lemma iteration_events env last_modified :
  (iteration env last_modified).2 =
  (if (scan env last_modified).2 then regenerate env else []) ++ [Sleep 2].
Proof. unfold iteration. by destruct (scan _ _). Qed.

(** X6.  After an iteration the table holds, for a file the walk came to
    and whose timestamp could be read, that timestamp; for every other
    path it holds what it held before. *)
Theorem table_after_iteration env last_modified q :
  (∀ t, q ∈ walked_files env → getmtime env q = Some t →
        (iteration env last_modified).1 !! q = Some t) ∧
  (q ∉ walked_files env →
   (iteration env last_modified).1 !! q = last_modified !! q) ∧
  (getmtime env q = None →
   (iteration env last_modified).1 !! q = last_modified !! q).
Proof.
  rewrite table_lookup. repeat split.
  - intros t Hq ->. by rewrite bool_decide_true.
  - intros Hq. destruct (getmtime env q); [|done]. by rewrite bool_decide_false.
  - by intros ->.
Qed.

Lemma table_after_iteration_witness :
  (iteration poll_example ∅).1 !! "src/mybuild/y" = Some 7%Z.
Proof.
  apply (proj1 (table_after_iteration poll_example ∅ "src/mybuild/y")).
  - apply list_elem_of_In. vm_compute. right. left. reflexivity.
  - reflexivity.
Defined.

(** X7.  Polling the same state of the files a second time leaves the
    table as the first poll left it. *)
Theorem second_poll_keeps_table env last_modified :
  (iteration env (iteration env last_modified).1).1 =
  (iteration env last_modified).1.
Proof.
  apply map_eq. intros q. rewrite !table_lookup.
  destruct (getmtime env q); [|done]. by case_bool_decide.
Qed.

(** X8.  An iteration leaves the table as it was exactly when it does not
    start the generator. *)
Theorem table_unchanged_iff_no_regeneration env last_modified :
  (iteration env last_modified).1 = last_modified ↔
  invocations (iteration env last_modified).2 = 0.
Proof.
  rewrite iteration_invocations, iteration_table, scan_walked_files. split.
  - intros Htable.
    destruct ((foldl (check_path env) (last_modified, false)
                 (walked_files env)).2) eqn:Hch; [|done].
    apply poll_changed in Hch as (p & Hp & t & Ht & Hrec). destruct Hrec.
    rewrite <-Htable at 1. by rewrite poll_table, Ht, bool_decide_true.
  - intros Hinv. apply poll_unchanged.
    by destruct ((foldl (check_path env) (last_modified, false)
                    (walked_files env)).2).
Qed.

Lemma quiet_iteration env last_modified :
  (∀ p, p ∈ walked_files env → ¬ new_or_changed env last_modified p) →
  iteration env last_modified = (last_modified, [Sleep 2]).
Proof.
  intros Hquiet.
  assert ((scan env last_modified).2 = false) as Hch.
  { rewrite scan_walked_files. apply not_true_is_false.
    intros (p & Hp & Hnew)%poll_changed. by apply (Hquiet p). }
  assert ((scan env last_modified).1 = last_modified) as Htable.
  { rewrite scan_walked_files in *. by apply poll_unchanged. }
  unfold iteration. destruct (scan env last_modified) as [table changed].
  simpl in *. by subst.
Qed.

(** X9.  A file whose timestamp cannot be read is passed over: when no
    timestamp can be read at all, the iteration leaves the table as it
    is and only sleeps. *)
Theorem unreadable_files_are_passed_over env last_modified :
  (∀ p, p ∈ walked_files env → getmtime env p = None) →
  iteration env last_modified = (last_modified, [Sleep 2]).
Proof.
  intros Hnone. apply quiet_iteration.
  intros p Hp (t & Ht & _). rewrite (Hnone p Hp) in Ht. done.
Qed.

Lemma unreadable_files_are_passed_over_witness :
  iteration unreadable_example ∅ = (∅, [Sleep 2]).
Proof.
  apply (unreadable_files_are_passed_over unreadable_example ∅).
  intros p _. reflexivity.
Defined.

(** X10.  A watch directory that does not exist, or that is a file, is
    passed over: when none of the five is a directory the walk reads no
    file and the iteration only sleeps. *)
Theorem missing_watch_dirs_are_passed_over env last_modified :
  (∀ watch_dir, watch_dir ∈ watch_dirs →
     lookup_entry watch_dir (cwd env) = None ∨
     ∃ n, lookup_entry watch_dir (cwd env) = Some (File n)) →
  walked_files env = [] ∧
  iteration env last_modified = (last_modified, [Sleep 2]).
Proof.
  intros Hmissing.
  assert (walked_files env = []) as Hwalked.
  { unfold walked_files. revert Hmissing.
    generalize watch_dirs as ws. intros ws Hws.
    induction ws as [|w ws IH]; simpl; [done|].
    rewrite IH by (intros; apply Hws; by right).
    destruct (Hws w) as [->|[n ->]]; [left|done..]. }
  split; [done|]. apply quiet_iteration. rewrite Hwalked.
  by intros p ?%elem_of_nil.
Qed.

Lemma missing_watch_dirs_are_passed_over_witness :
  iteration
    {| cwd := [File "src"; Dir "lib" (Listed [File "a.ts"])];
       getmtime := λ _, Some 1%Z;
       subprocess_run := Completed 0 "" |} ∅
  = (∅, [Sleep 2]).
Proof.
  apply (missing_watch_dirs_are_passed_over
           {| cwd := [File "src"; Dir "lib" (Listed [File "a.ts"])];
              getmtime := λ _, Some 1%Z;
              subprocess_run := Completed 0 "" |} ∅).
  intros watch_dir Hin. apply list_elem_of_In in Hin. simpl in Hin.
  destruct Hin as [<-|[<-|[<-|[<-|[<-|[]]]]]];
    [right; by exists "src"|left; reflexivity..].
Defined.

(** ** The trace of the watcher *)

Lemma invocations_app events1 events2 :
  invocations (events1 ++ events2) = invocations events1 + invocations events2.
Proof. unfold invocations. by rewrite List.filter_app, length_app. Qed.

Lemma sleeps_app events1 events2 :
  sleeps (events1 ++ events2) = sleeps events1 + sleeps events2.
Proof. unfold sleeps. by rewrite List.filter_app, length_app. Qed.

Lemma regenerate_events env :
  regenerate env =
  [ Print "🔄 Changes detected, regenerating structure...";
    SubprocessRun ["python"; "generate_structure.py"];
    Print (report (subprocess_run env)) ].
Proof.
  unfold regenerate, report.
  destruct (subprocess_run env) as [[|code|code] err|msg]; reflexivity.
Qed.

Lemma iteration_sleeps env last_modified :
  sleeps (iteration env last_modified).2 = 1.
Proof.
  rewrite iteration_events, sleeps_app.
  destruct (scan env last_modified).2; [|done]. by rewrite regenerate_events.
Qed.

Lemma watch_loop_counts envs :
  sleeps (watch_loop envs ∅).2 = length envs ∧
  invocations (watch_loop envs ∅).2 ≤ length envs.
Proof.
  induction envs as [|env envs [IHs IHi]] using rev_ind; [done|].
  rewrite watch_loop_snoc. cbn [fst snd].
  rewrite sleeps_app, invocations_app, length_app, iteration_sleeps.
  cbn [length]. split; [lia|]. rewrite iteration_invocations.
  destruct (scan env _).2; lia.
Qed.

(** X11.  The watcher sleeps once in every iteration and starts the
    generator at most once in every iteration, whatever the generator
    and the files do. *)
Theorem one_sleep_per_iteration envs :
  sleeps (watch_and_regenerate envs).2 = length envs ∧
  invocations (watch_and_regenerate envs).2 ≤ length envs.
Proof.
  destruct (watch_loop_counts envs) as [Hs Hi].
  unfold watch_and_regenerate. destruct (watch_loop envs ∅) as [table events].
  cbn [fst snd] in *. rewrite !sleeps_app, !invocations_app.
  change (sleeps [Print (nl +:+ "👋 Stopping watcher...")]) with 0.
  change (invocations [Print (nl +:+ "👋 Stopping watcher...")]) with 0.
  change (sleeps [Print _; Print _; Print _]) with 0.
  change (invocations [Print _; Print _; Print _]) with 0.
  lia.
Qed.

Lemma scan_same_files env env' last_modified :
  cwd env = cwd env' →
  (∀ p, getmtime env p = getmtime env' p) →
  scan env last_modified = scan env' last_modified.
Proof.
  intros Hcwd Hmtime. rewrite !scan_walked_files.
  unfold walked_files. rewrite Hcwd. apply foldl_ext.
  intros st p. unfold check_path. by rewrite Hmtime.
Qed.

(** X12.  The outcome of the generator is printed and nothing more: the
    table and the number of runs of an iteration are the same whether the
    generator succeeds, exits with an error or cannot be started; and an
    iteration that starts it announces the run, starts it, prints the
    outcome and sleeps. *)
Theorem generator_outcome_is_only_reported env env' last_modified :
  cwd env = cwd env' →
  (∀ p, getmtime env p = getmtime env' p) →
  (iteration env last_modified).1 = (iteration env' last_modified).1 ∧
  invocations (iteration env last_modified).2 =
  invocations (iteration env' last_modified).2 ∧
  (invocations (iteration env last_modified).2 = 1 →
   (iteration env last_modified).2 =
   [ Print "🔄 Changes detected, regenerating structure...";
     SubprocessRun ["python"; "generate_structure.py"];
     Print (report (subprocess_run env));
     Sleep 2 ]).
Proof.
  intros Hcwd Hmtime.
  pose proof (scan_same_files env env' last_modified Hcwd Hmtime) as Hscan.
  rewrite !iteration_table, !iteration_invocations, iteration_events, Hscan.
  repeat split. destruct (scan env' last_modified).2; [|done].
  intros _. by rewrite regenerate_events.
Qed.

Lemma generator_outcome_is_only_reported_witness :
  (iteration poll_example ∅).1 =
  (iteration
     {| cwd := cwd poll_example;
        getmtime := getmtime poll_example;
        subprocess_run := Completed 1 "boom" |} ∅).1.
Proof.
  apply (generator_outcome_is_only_reported poll_example
           {| cwd := cwd poll_example;
              getmtime := getmtime poll_example;
              subprocess_run := Completed 1 "boom" |} ∅).
  - reflexivity.
  - intros p. reflexivity.
Defined.

(** X13.  Every entry of the table was read: a path the table maps to a
    timestamp was come to by the walk of some iteration, in which that
    timestamp was read for it. *)
Theorem table_holds_what_was_read envs p t :
  (watch_and_regenerate envs).1 !! p = Some t →
  ∃ env, env ∈ envs ∧ p ∈ walked_files env ∧ getmtime env p = Some t.
Proof.
  rewrite watch_and_regenerate_table.
  induction envs as [|env envs IH] using rev_ind.
  { unfold watch_loop. cbn [foldl fst]. by rewrite lookup_empty. }
  rewrite watch_loop_snoc. cbn [fst]. rewrite table_lookup.
  assert ((watch_loop envs ∅).1 !! p = Some t →
          ∃ env0, env0 ∈ envs ++ [env] ∧ p ∈ walked_files env0
                  ∧ getmtime env0 p = Some t) as Hold.
  { intros (env0 & Hin & H)%IH. exists env0. split; [|done].
    apply elem_of_app. by left. }
  destruct (getmtime env p) as [t'|] eqn:Ht; [|done].
  case_bool_decide as Hp; [|done]. intros [= ->].
  exists env. split; [|done]. apply elem_of_app. right. left.
Qed.

Lemma table_holds_what_was_read_witness :
  ∃ env,
    env ∈ [poll_example] ∧ "src/a.ts" ∈ walked_files env ∧
    getmtime env "src/a.ts" = Some 5%Z.
Proof.
  apply (table_holds_what_was_read [poll_example] "src/a.ts" 5%Z).
  vm_compute. reflexivity.
Defined.

(** ** [split] *)

Lemma string_length_app s t :
  String.length (s +:+ t) = String.length s + String.length t.
Proof. induction s as [|c s IH]; [done|]. rewrite app_String. simpl. by rewrite IH. Qed.

Lemma skip_chars_app s t : skip_chars (String.length s) (s +:+ t) = t.
Proof. induction s as [|c s IH]; [by destruct t|]. by rewrite app_String. Qed.

Lemma split_go_cons sep k piece s :
  ∃ x l, split_go sep k piece s = x :: l.
Proof.
  revert k piece. induction s as [|c s IH]; intros k piece; [by eexists _, _|].
  destruct k as [|k]; [|apply IH]. rewrite split_go_String.
  destruct (String.prefix _ _); [by eexists _, _|apply IH].
Qed.

Lemma join_cons sep x l :
  l ≠ [] → join sep (x :: l) = x +:+ sep +:+ join sep l.
Proof. by destruct l. Qed.

Lemma split_go_join sep s :
  sep ≠ "" →
  ∀ k piece,
    k ≤ String.length s →
    join sep (split_go sep k piece s) = piece +:+ skip_chars k s.
Proof.
  intros Hsep. induction s as [|c s IH]; intros k piece Hk.
  { simpl in Hk. replace k with 0 by lia. simpl. by rewrite app_empty_r. }
  destruct k as [|k]; [|simpl in *; apply IH; lia].
  rewrite split_go_String.
  destruct (String.prefix sep (String c s)) eqn:Hp.
  - apply prefix_spec in Hp as [b Hb].
    destruct sep as [|c' sep']; [done|].
    rewrite app_String in Hb. injection Hb as -> ->.
    destruct (split_go_cons (String c' sep')
                (String.length (String c' sep') - 1) "" (sep' +:+ b))
      as (x & l & Hl).
    rewrite join_cons by (by rewrite Hl).
    rewrite IH by (simpl; rewrite string_length_app; lia).
    simpl. rewrite Nat.sub_0_r, skip_chars_app.
    by rewrite app_empty_l, <-app_String.
  - rewrite IH by lia. simpl. by rewrite app_assoc_str.
Qed.

(** X14.  Splitting loses nothing: the pieces [main] counts, joined by
    the token they were split at, give back the rendered text; so there
    is always at least one piece. *)
Theorem split_then_join structure :
  join "<file" (split "<file" structure) = structure ∧
  1 ≤ summary_count structure.
Proof.
  split.
  - unfold split. by rewrite split_go_join by (done || lia).
  - unfold summary_count, split.
    destruct (split_go_cons "<file" 0 "" structure) as (x & l & ->).
    simpl. lia.
Qed.

(** ** The whole run of the generator *)

(** X15.  A run of [main] writes the same file and prints the same lines
    for a tree and for the same tree listed in another order. *)
Theorem main_does_not_depend_on_listing_order fs fs' :
  relisted fs fs' → main fs = main fs'.
Proof.
  intros Hfs. unfold main.
  by rewrite (generate_relisted main_ignore_patterns default_max_depth _ "." 0
                fs fs' eq_refl Hfs).
Qed.

Lemma main_does_not_depend_on_listing_order_witness :
  main (Listed [File "b.ts"; File "a.ts"]) =
  main (Listed [File "a.ts"; File "b.ts"]).
Proof.
  apply (main_does_not_depend_on_listing_order
           (Listed [File "b.ts"; File "a.ts"])
           (Listed [File "a.ts"; File "b.ts"])).
  apply (relisted_listed _ [File "a.ts"; File "b.ts"]).
  - compute_done.
  - apply Permutation_swap.
  - constructor; [constructor|]. constructor; constructor.
Defined.

Lemma join_is_empty_or_tag items :
  Forall is_tag items → join nl items = "" ∨ is_tag (join nl items).
Proof.
  destruct 1 as [|x items [x' ->] _]; [by left|]. right.
  destruct items; by eexists.
Qed.

(** X16.  A rendering is empty or begins with the bracket of a tag: it
    is never made of white space only, so stripping it before the test
    for emptiness changes nothing. *)
Theorem rendering_is_empty_or_tag pats root_path max_depth current_depth fs s :
  generate_directory_structure pats root_path max_depth current_depth fs = Ok s →
  (s = "" ∨ ∃ s', s = String "<" s') ∧ truthy (strip s) = truthy s.
Proof.
  intros Hs. split; [|by eapply generate_blank].
  revert Hs. rewrite generate_directory_structure_unfold.
  case_bool_decide; [intros [= <-]; by left|].
  set (recurse := λ item content, _).
  assert (Forall is_tag (try_block pats recurse root_path fs).1) as Htags.
  { destruct fs as [entries|e]; simpl; [|constructor].
    apply for_each_invariant; [|constructor].
    intros. by apply loop_body_tags. }
  destruct (try_block _ _ _ _) as [items [[]|]]; simpl in *; intros [= <-];
    by apply join_is_empty_or_tag.
Qed.

Lemma rendering_is_empty_or_tag_witness :
  truthy (strip ("<file name='a.ts'/>" +:+ nl +:+ "<file name='b.ts'/>")) =
  truthy ("<file name='a.ts'/>" +:+ nl +:+ "<file name='b.ts'/>").
Proof.
  apply (rendering_is_empty_or_tag [] "." default_max_depth 0
           (Listed [File "b.ts"; File "a.ts"])).
  reflexivity.
Defined.
